(** * glFont: a shallow embedding of the font parser, its readers and its
    generational arena, with the properties of its specification. *)

From Stdlib Require Import NArith ZArith Lia String ZifyNat ZifyN.
From Stdlib Require Import Strings.Byte.
From stdpp Require Import base list.

Local Open Scope N_scope.

(* ================================================================== *)
(** ** Generational arena ([src/types/slotmap.rs]) *)
(* ================================================================== *)

Module Slotmap.

(** [union SlotContent<T>]: exactly one of the two fields is meant to be
    live; the embedding tags which one the code last wrote. *)
Inductive SlotContent (T : Type) :=
| Value (v : T)
| NextFree (n : N).
Arguments Value {T} v.
Arguments NextFree {T} n.

(** [pub type Key = u32]: 16-bit index in the high half, 16-bit version in
    the low half. *)
Definition Key := N.

Record Slotmap (T : Type) := mkSlotmap {
  slots : list (SlotContent T * N);
  next_free : N;
  num_elems : N;
}.
Arguments mkSlotmap {T} slots next_free num_elems.
Arguments slots {T} s.
Arguments next_free {T} s.
Arguments num_elems {T} s.

Section Ops.
Context {T : Type}.

(** Results are [option]s: [None] is a panic (failed assertion, index out of
    bounds, arithmetic overflow in a checked build) or a read of the union
    field that is not live, which is undefined behaviour in the source. *)

Definition new : Slotmap T := mkSlotmap [(NextFree 0, 0)] 0 0.

Definition key_version (key : Key) : N := N.land key 0xffff.
Definition key_index (key : Key) : N := N.shiftr key 16.

(** [Slotmap::push] *)
Definition push (s : Slotmap T) (value : T) : option (Slotmap T * Key) :=
  if negb (num_elems s <? 65535 - 1) then None (* "Slotmap Full" *)
  else
    match slots s !! N.to_nat (next_free s) with
    | None => None
    | Some (_, avail_ver) =>
        if avail_ver mod 2 =? 1 then
          (* Push new slot *)
          let key := N.lor (N.shiftl (num_elems s) 16) 1 in
          Some (mkSlotmap (slots s ++ [(Value value, 1)])
                          (num_elems s) (num_elems s + 1), key)
        else
          let avail_ver := avail_ver + 1 in
          let index := next_free s in
          match slots s !! N.to_nat index with
          | Some (NextFree nf, _) =>
              Some (mkSlotmap (<[N.to_nat index := (Value value, avail_ver)]> (slots s))
                              nf (num_elems s + 1),
                    N.lor (N.shiftl index 16) avail_ver)
          | _ => None
          end
    end.

(** [Slotmap::contains]: [!(self.slots.len() < index || self.slots[index].1 != version)] *)
Definition contains (s : Slotmap T) (key : Key) : option bool :=
  let version := key_version key in
  let index := key_index key in
  if N.of_nat (length (slots s)) <? index then Some false
  else
    match slots s !! N.to_nat index with
    | None => None (* slots[index] out of bounds *)
    | Some (_, ver) => Some (ver =? version)
    end.

(** [Slotmap::get] (and [get_mut], which has the same body). *)
Definition get (s : Slotmap T) (key : Key) : option (option T) :=
  match contains s key with
  | None => None
  | Some false => Some None
  | Some true =>
      match slots s !! N.to_nat (key_index key) with
      | Some (Value v, _) => Some (Some v)
      | _ => None
      end
  end.

(** [Slotmap::try_pop] *)
Definition try_pop (s : Slotmap T) (key : Key) : option (Slotmap T * option T) :=
  let version := key_version key in
  let index := key_index key in
  match contains s key with
  | None => None
  | Some false => Some (s, None)
  | Some true =>
      if 65535 <? version + 1 then None (* [version + 1] overflows u16 *)
      else
        match slots s !! N.to_nat index with
        | Some (Value v, _) =>
            Some (mkSlotmap (<[N.to_nat index := (NextFree (next_free s), version + 1)]> (slots s))
                            (next_free s) (num_elems s),
                  Some v)
        | _ => None
        end
  end.

(** A client's sequence of calls. *)
Inductive op :=
| OpPush (v : T)
| OpPop (k : Key).

Definition step (s : Slotmap T) (o : op) : option (Slotmap T) :=
  match o with
  | OpPush v => fst <$> push s v
  | OpPop k => fst <$> try_pop s k
  end.

Fixpoint run (s : Slotmap T) (os : list op) : option (Slotmap T) :=
  match os with
  | [] => Some s
  | o :: os' => s' ← step s o; run s' os'
  end.

(** Slot versions never decrease and slots are never removed. *)
Definition versions_grow (s s' : Slotmap T) : Prop :=
  (length (slots s) <= length (slots s'))%nat /\
  forall i c v, slots s !! i = Some (c, v) ->
    exists c' v', slots s' !! i = Some (c', v') /\ v <= v'.

Lemma versions_grow_refl s : versions_grow s s.
Proof. split; [lia|]. intros i c v H. exists c, v. split; [done|lia]. Qed.

Lemma versions_grow_trans s1 s2 s3 :
  versions_grow s1 s2 -> versions_grow s2 s3 -> versions_grow s1 s3.
Proof.
  intros [L1 H1] [L2 H2]. split; [lia|].
  intros i c v Hi. destruct (H1 _ _ _ Hi) as (c' & v' & Hi' & Hle).
  destruct (H2 _ _ _ Hi') as (c'' & v'' & Hi'' & Hle').
  exists c'', v''. split; [done|lia].
Qed.

(** Overwriting slot [j] with a version no smaller than the old one. *)
Lemma versions_grow_insert s j c0 v0 c1 v1 nf ne :
  slots s !! j = Some (c0, v0) -> v0 <= v1 ->
  versions_grow s (mkSlotmap (<[j := (c1, v1)]> (slots s)) nf ne).
Proof.
  intros Hj Hle. split; simpl; [rewrite length_insert; lia|].
  intros i c v Hi. destruct (decide (i = j)) as [->|Hne].
  - rewrite Hj in Hi. injection Hi as <- <-.
    exists c1, v1. split; [|done]. apply list_lookup_insert_eq.
    by eapply lookup_lt_Some.
  - exists c, v. split; [|lia]. by rewrite list_lookup_insert_ne.
Qed.

Lemma push_versions_grow s v s' key :
  push s v = Some (s', key) -> versions_grow s s'.
Proof.
  unfold push. intros H. cbv zeta in H.
  destruct (negb _); [discriminate|].
  destruct (slots s !! _) as [[c0 ver]|] eqn:Hl; [|discriminate].
  destruct (ver mod 2 =? 1).
  - injection H as <- _. split; simpl; [rewrite length_app; lia|].
    intros i c w Hi. exists c, w. split; [|lia].
    by apply lookup_app_l_Some.
  - destruct c0 as [|nf]; [discriminate|].
    injection H as <- _. eapply versions_grow_insert; [exact Hl|lia].
Qed.

Lemma contains_true s key :
  contains s key = Some true ->
  exists c, slots s !! N.to_nat (key_index key) = Some (c, key_version key).
Proof.
  unfold contains. destruct (_ <? _); [discriminate|].
  destruct (slots s !! _) as [[c ver]|]; [|discriminate].
  intros H. injection H as H. apply N.eqb_eq in H. subst. by exists c.
Qed.

Lemma try_pop_versions_grow s key s' r :
  try_pop s key = Some (s', r) -> versions_grow s s'.
Proof.
  unfold try_pop. intros H.
  destruct (contains s key) as [[|]|] eqn:Hc; [|injection H as <- _; apply versions_grow_refl|discriminate].
  destruct (65535 <? _); [discriminate|].
  destruct (contains_true _ _ Hc) as [c Hl]. rewrite Hl in H.
  destruct c; [|discriminate]. injection H as <- _.
  eapply versions_grow_insert; [exact Hl|lia].
Qed.

Lemma step_versions_grow s o s' : step s o = Some s' -> versions_grow s s'.
Proof.
  destruct o as [v|k]; simpl; intros H.
  - destruct (push s v) as [[s1 key]|] eqn:Hp; [|discriminate].
    injection H as <-. by eapply push_versions_grow.
  - destruct (try_pop s k) as [[s1 r]|] eqn:Hp; [|discriminate].
    injection H as <-. by eapply try_pop_versions_grow.
Qed.

Lemma run_versions_grow os : forall s s', run s os = Some s' -> versions_grow s s'.
Proof.
  induction os as [|o os IH]; simpl; intros s s' H.
  - injection H as <-. apply versions_grow_refl.
  - destruct (step s o) as [s1|] eqn:Hs; [|discriminate].
    eapply versions_grow_trans; [by eapply step_versions_grow|by apply IH].
Qed.

(** After a successful [try_pop], the slot holds the key's version plus one. *)
Lemma try_pop_some_slot s key s' x :
  try_pop s key = Some (s', Some x) ->
  exists c, slots s' !! N.to_nat (key_index key) = Some (c, key_version key + 1).
Proof.
  unfold try_pop. intros H.
  destruct (contains s key) as [[|]|] eqn:Hc; [|injection H as _ H; discriminate|discriminate].
  destruct (65535 <? _); [discriminate|].
  destruct (contains_true _ _ Hc) as [c Hl]. rewrite Hl in H.
  destruct c; [|discriminate]. injection H as <- _. simpl.
  exists (NextFree (next_free s)). apply list_lookup_insert_eq.
  by eapply lookup_lt_Some.
Qed.

(** A key whose slot exists with another version is rejected. *)
Lemma contains_stale s key c v :
  slots s !! N.to_nat (key_index key) = Some (c, v) -> v <> key_version key ->
  contains s key = Some false.
Proof.
  intros Hl Hne. unfold contains.
  assert (Hlt : (N.to_nat (key_index key) < length (slots s))%nat) by (by eapply lookup_lt_Some).
  replace (N.of_nat (length (slots s)) <? key_index key) with false
    by (symmetry; apply N.ltb_ge; lia).
  rewrite Hl. f_equal. by apply N.eqb_neq.
Qed.

End Ops.

End Slotmap.

(* ================================================================== *)
(** ** Byte sources and the checksum reader ([src/types/io.rs]) *)
(* ================================================================== *)

Module Io.

(** The byte source is a slice reader ([impl Read for &[u8]]): [read(buf)]
    copies [min(buf.len(), remaining)] bytes and never fails. *)
Abbreviation Source := (list byte).

Definition src_read (src : Source) (n : nat) : list byte * Source :=
  (firstn n src, skipn n src).

(** u32 operations as written in the reader. *)
Definition u32_mask : N := N.ones 32.
Definition wrapping_add (a b : N) : N := (a + b) mod 2 ^ 32.
Definition wrapping_sub (a b : N) : N := (a + 2 ^ 32 - b mod 2 ^ 32) mod 2 ^ 32.
(** [next_add <<= 8; next_add |= u32::from(byte)] *)
Definition shift_in (next_add : N) (b : byte) : N :=
  N.lor (N.land (N.shiftl next_add 8) u32_mask) (Byte.to_N b).

Record ChecksumReader := mkChecksumReader {
  index : nat;
  checksum : N;
  next_add : N;
}.

Definition cr_new : ChecksumReader := mkChecksumReader 0 0 0.

(** The [while index != *read] loop of [ChecksumReader::read]; [self_index]
    is [self.index], [index] the loop counter. *)
Fixpoint read_loop (self_index index : nat) (checksum next_add : N) (buf : list byte)
    : nat * N * N :=
  match buf with
  | [] => (index, checksum, next_add)
  | b :: buf' =>
      let next_add := shift_in next_add b in
      let index := S index in
      let checksum :=
        if Nat.eqb ((self_index + index) mod 4) 0 then wrapping_add checksum next_add
        else checksum in
      read_loop self_index index checksum next_add buf'
  end.

(** [ChecksumReader::read] for a buffer of [n] bytes: returns the reader,
    the rest of the source, the bytes placed in the buffer and their count. *)
Definition cr_read (r : ChecksumReader) (src : Source) (n : nat)
    : ChecksumReader * Source * list byte :=
  let '(got, src') := src_read src n in
  let '(idx, ck, na) := read_loop (index r) 0 (checksum r) (next_add r) got in
  (mkChecksumReader (index r + idx) ck na, src', got).

(** Several consecutive reads, of the given buffer sizes. *)
Fixpoint cr_reads (r : ChecksumReader) (src : Source) (sizes : list nat)
    : ChecksumReader * Source :=
  match sizes with
  | [] => (r, src)
  | n :: sizes' => let '(r', src', _) := cr_read r src n in cr_reads r' src' sizes'
  end.

Definition next_multiple_of_4 (i : nat) : nat := ((i + 3) / 4 * 4)%nat.

(** [ChecksumReader::finish]: returns the checksum and the rest of the
    source. *)
Definition cr_finish (r : ChecksumReader) (src : Source) : N * Source :=
  let remain := (next_multiple_of_4 (index r) - index r)%nat in
  let '(r', src', got) := cr_read r src remain in
  (* [garbage] is [[0; 3]] with its first [got.len()] bytes overwritten *)
  let garbage := got ++ repeat x00 (3 - length got) in
  let next_add := fold_left shift_in (firstn remain garbage) (next_add r') in
  let checksum := if Nat.eqb remain 0 then checksum r' else wrapping_add (checksum r') next_add in
  (checksum, src').

(** The reference value of the specification: the wrapping sum of the
    big-endian 4-byte words of a byte string zero-padded to a multiple of 4. *)
Definition be_word (l : list byte) : N :=
  fold_left (fun acc b => acc * 256 + Byte.to_N b) (firstn 4 (l ++ [x00; x00; x00; x00])) 0.

Fixpoint padded_word_sum (l : list byte) : N :=
  match l with
  | a :: b :: c :: d :: t => wrapping_add (be_word [a; b; c; d]) (padded_word_sum t)
  | [] => 0
  | _ => be_word l mod 2 ^ 32
  end.

(** *** Facts about the reader *)

Lemma byte_lt_256 (b : byte) : Byte.to_N b < 256.
Proof. pose proof (Byte.to_N_bounded b). lia. Qed.

Lemma shift_in_spec x b : shift_in x b = (x * 256 + Byte.to_N b) mod 2 ^ 32.
Proof.
  unfold shift_in, u32_mask. rewrite N.land_ones, N.shiftl_mul_pow2.
  pose proof (byte_lt_256 b) as Hb.
  assert (Hd : N.land ((x * 2 ^ 8) mod 2 ^ 32) (Byte.to_N b) = 0).
  { apply N.bits_inj_iff. intros i. rewrite N.land_spec, N.bits_0.
    destruct (N.lt_ge_cases i 8) as [Hi|Hi].
    - rewrite N.mod_pow2_bits_low by lia. rewrite <- N.shiftl_mul_pow2.
      by rewrite N.shiftl_spec_low.
    - rewrite <- (N.mod_small (Byte.to_N b) (2 ^ 8)) by (simpl; lia).
      rewrite (N.mod_pow2_bits_high (Byte.to_N b) 8 i) by lia. apply andb_false_r. }
  rewrite <- N.lxor_lor, <- N.add_nocarry_lxor by exact Hd.
  lia.
Qed.

(** The reader, one byte at a time. *)
Definition word_boundary (i : nat) : bool := Nat.eqb (i mod 4) 0.

Definition ck_step (r : ChecksumReader) (b : byte) : ChecksumReader :=
  let na := shift_in (next_add r) b in
  mkChecksumReader (S (index r))
    (if word_boundary (S (index r)) then wrapping_add (checksum r) na else checksum r) na.

Lemma read_loop_fold si buf : forall i c na,
  let '(i', c', na') := read_loop si i c na buf in
  mkChecksumReader (si + i') c' na' = fold_left ck_step buf (mkChecksumReader (si + i) c na).
Proof.
  induction buf as [|b buf IH]; intros i c na; simpl; [done|].
  specialize (IH (S i) (if Nat.eqb ((si + S i) mod 4) 0 then wrapping_add c (shift_in na b) else c)
                (shift_in na b)).
  destruct (read_loop _ _ _ _ _) as [[i' c'] na'].
  rewrite IH. unfold ck_step, word_boundary; simpl. by rewrite Nat.add_succ_r.
Qed.

Lemma cr_read_fold r src n :
  cr_read r src n = (fold_left ck_step (firstn n src) r, skipn n src, firstn n src).
Proof.
  unfold cr_read, src_read.
  pose proof (read_loop_fold (index r) (firstn n src) 0 (checksum r) (next_add r)) as H.
  destruct (read_loop _ _ _ _ _) as [[i' c'] na'].
  rewrite H, Nat.add_0_r. by destruct r.
Qed.

Lemma cr_reads_fold sizes : forall r data rest,
  sum_list sizes = length data ->
  cr_reads r (data ++ rest) sizes = (fold_left ck_step data r, rest).
Proof.
  induction sizes as [|n sizes IH]; intros r data rest Hs; simpl in *.
  - destruct data; [done|discriminate].
  - rewrite cr_read_fold.
    rewrite <- (take_drop n data) at 1 2.
    rewrite <- app_assoc, take_app_length' by (rewrite length_take; lia).
    rewrite drop_app_length' by (rewrite length_take; lia).
    rewrite IH by (rewrite length_drop; lia).
    by rewrite <- fold_left_app, take_drop.
Qed.

Arguments word_boundary : simpl never.
Arguments shift_in : simpl never.
Arguments wrapping_add : simpl never.

Definition pad_len (n : nat) : nat := ((4 - n mod 4) mod 4)%nat.

Lemma word_boundaries i :
  (i mod 4 = 0)%nat ->
  word_boundary (S i) = false /\ word_boundary (S (S i)) = false /\
  word_boundary (S (S (S i))) = false /\ word_boundary (S (S (S (S i)))) = true.
Proof. intros H. unfold word_boundary. repeat split; [apply Nat.eqb_neq; lia..|apply Nat.eqb_eq; lia]. Qed.

Ltac word_boundaries i :=
  let H1 := fresh in let H2 := fresh in let H3 := fresh in let H4 := fresh in
  destruct (word_boundaries i ltac:(assumption)) as (H1 & H2 & H3 & H4);
  rewrite ?H1, ?H2, ?H3, ?H4; clear H1 H2 H3 H4.

Ltac byte_bounds :=
  repeat match goal with
  | b : byte |- _ =>
      let H := fresh in pose proof (byte_lt_256 b) as H; revert H; revert b
  end; intros.

Lemma four_steps i c na a b c' d :
  (i mod 4 = 0)%nat ->
  fold_left ck_step [a; b; c'; d] (mkChecksumReader i c na) =
  mkChecksumReader (S (S (S (S i)))) (wrapping_add c (be_word [a; b; c'; d])) (be_word [a; b; c'; d]).
Proof.
  intros Hi. unfold fold_left, ck_step. cbn [index checksum next_add].
  word_boundaries i.
  assert (Hw : shift_in (shift_in (shift_in (shift_in na a) b) c') d = be_word [a; b; c'; d]).
  { rewrite !shift_in_spec. cbn. byte_bounds. lia. }
  by rewrite Hw.
Qed.

Lemma remains i :
  (i mod 4 = 0)%nat ->
  (next_multiple_of_4 i - i = 0)%nat /\ (next_multiple_of_4 (S i) - S i = 3)%nat /\
  (next_multiple_of_4 (S (S i)) - S (S i) = 2)%nat /\
  (next_multiple_of_4 (S (S (S i))) - S (S (S i)) = 1)%nat.
Proof. intros H. unfold next_multiple_of_4. repeat split; lia. Qed.

(** The padding the source supplies after the data: nothing at all, or
    all [pad_len n] bytes present and zero, in the cases where [finish]
    adds them only once. *)
Definition padding_ok (n : nat) (rest : list byte) : Prop :=
  rest = [] \/ (pad_len n <> 1%nat /\ firstn (pad_len n) rest = repeat x00 (pad_len n)).

Lemma padding_split n rest :
  firstn n rest = repeat x00 n -> rest = repeat x00 n ++ skipn n rest.
Proof. intros H. by rewrite <- H, take_drop. Qed.

Lemma shift_collapse x b :
  ((x mod 2 ^ 32) * 256 + b) mod 2 ^ 32 = (x * 256 + b) mod 2 ^ 32.
Proof.
  rewrite <- (N.Div0.add_mod_idemp_l ((x mod 2 ^ 32) * 256)), N.Div0.mul_mod_idemp_l.
  by rewrite N.Div0.add_mod_idemp_l.
Qed.

Ltac finish_arith :=
  rewrite ?shift_in_spec; unfold wrapping_add; cbn;
  rewrite ?shift_collapse, ?N.Div0.add_mod_idemp_l, ?N.Div0.add_mod_idemp_r;
  byte_bounds; lia.

Lemma finish_short i c na t rest :
  (i mod 4 = 0)%nat -> c < 2 ^ 32 -> (length t < 4)%nat -> padding_ok (length t) rest ->
  cr_finish (fold_left ck_step t (mkChecksumReader i c na)) rest =
  (wrapping_add c (padded_word_sum t), skipn (pad_len (length t)) rest).
Proof.
  intros Hi Hc Hlen Hpad.
  destruct (remains i Hi) as (R0 & R1 & R2 & R3).
  destruct t as [|a [|b [|c' [|d t]]]]; [| | | |simpl in Hlen; lia];
    unfold cr_finish; rewrite cr_read_fold; cbn [fold_left ck_step index checksum next_add];
    rewrite ?R0, ?R1, ?R2, ?R3; unfold padding_ok, pad_len in *; cbn [length] in *;
    change ((4 - 0 mod 4) mod 4)%nat with 0%nat in *;
    change ((4 - 1 mod 4) mod 4)%nat with 3%nat in *;
    change ((4 - 2 mod 4) mod 4)%nat with 2%nat in *;
    change ((4 - 3 mod 4) mod 4)%nat with 1%nat in *.
  - rewrite take_0, drop_0. cbn. f_equal. unfold wrapping_add. rewrite N.add_0_r, N.mod_small; lia.
  - destruct Hpad as [->|[_ Hz]].
    + cbn. word_boundaries i. f_equal. finish_arith.
    + rewrite (padding_split 3 rest Hz). cbn. rewrite !take_0. cbn. word_boundaries i. f_equal. finish_arith.
  - destruct Hpad as [->|[_ Hz]].
    + cbn. word_boundaries i. f_equal. finish_arith.
    + rewrite (padding_split 2 rest Hz). cbn. rewrite !take_0. cbn. word_boundaries i. f_equal. finish_arith.
  - destruct Hpad as [->|[Hne _]]; [|lia].
    cbn. word_boundaries i. f_equal. finish_arith.
Qed.

Lemma padded_word_sum_lt l : padded_word_sum l < 2 ^ 32.
Proof.
  destruct l as [|a [|b [|c [|d t]]]]; cbn [padded_word_sum]; unfold wrapping_add;
    try apply N.mod_lt; lia.
Qed.

Lemma finish_fold n : forall data i c na rest,
  (length data <= n)%nat -> (i mod 4 = 0)%nat -> c < 2 ^ 32 -> padding_ok (length data) rest ->
  cr_finish (fold_left ck_step data (mkChecksumReader i c na)) rest =
  (wrapping_add c (padded_word_sum data), skipn (pad_len (length data)) rest).
Proof.
  induction n as [|n IH]; intros data i c na rest Hn Hi Hc Hpad.
  - apply finish_short; auto. lia.
  - destruct (decide (length data < 4)%nat) as [Hs|Hs]; [by apply finish_short|].
    destruct data as [|a [|b [|c' [|d t]]]]; cbn [length] in Hs; try lia.
    change (a :: b :: c' :: d :: t) with ([a; b; c'; d] ++ t) in *.
    rewrite fold_left_app, four_steps by exact Hi.
    assert (Hp : pad_len (length ([a; b; c'; d] ++ t)) = pad_len (length t)).
    { rewrite length_app. unfold pad_len. cbn [length]. lia. }
    assert (Hpad' : padding_ok (length t) rest) by (unfold padding_ok in *; by rewrite Hp in Hpad).
    rewrite Hp.
    rewrite IH; [|cbn [length] in Hn; rewrite length_app in Hn; cbn [length] in Hn; lia
               |lia|unfold wrapping_add; apply N.mod_lt; lia|exact Hpad'].
    f_equal. cbn [app padded_word_sum]. unfold wrapping_add.
    rewrite N.Div0.add_mod_idemp_l, N.Div0.add_mod_idemp_r. f_equal. lia.
Qed.

End Io.

(* ================================================================== *)
(** ** Errors and the byte-level reader monad *)
(* ================================================================== *)

Module Err.

(** [ParseError] / [FontError] (the same enum, [src/types/mod.rs]); the
    [ValidType] payloads of [Parsing] are kept as numbers. *)
Inductive FontError :=
| Io (e : N)
| UnexpectedEnd (needed : nat)            (* CoreReadError::UnexpectedEnd *)
| InvalidSfntVersion (version : list byte)
| Parsing (variable : string) (expected parsed : N)
| InvalidTag (tag : list byte)
| InvalidVersion (location : string) (version : N)
| Allocation (location : string) (expected allocated : nat)
| UnexpectedEof (at_ : nat)
| UnexpectedEop (location : string) (needed : nat)
| MissingTable (missing parsing : string).

(** A call returns a value, returns an error, or panics. *)
Inductive Result (A : Type) :=
| Ok (a : A)
| Error (e : FontError)
| Panic.
Arguments Ok {A} a.
Arguments Error {A} e.
Arguments Panic {A}.

Definition bind {A B} (r : Result A) (f : A -> Result B) : Result B :=
  match r with
  | Ok a => f a
  | Error e => Error e
  | Panic => Panic
  end.

(** A parser reading a slice source ([&[u8]]) front to back. *)
Definition Reader (A : Type) := list byte -> Result (A * list byte).

Definition ret {A} (a : A) : Reader A := fun src => Ok (a, src).
Definition rbind {A B} (m : Reader A) (f : A -> Reader B) : Reader B :=
  fun src => bind (m src) (fun '(a, src') => f a src').
Definition fail {A} (e : FontError) : Reader A := fun _ => Error e.
Definition panic {A} : Reader A := fun _ => Panic.

Notation "x <- m ;; k" := (rbind m (fun x => k))
  (at level 100, m at next level, right associativity).

(** [read(buf)] on a slice: the bytes copied into a [n]-byte buffer. *)
Definition read_bytes (n : nat) : Reader (list byte) :=
  fun src => Ok (firstn n src, skipn n src).

Definition be_value (l : list byte) : N :=
  fold_left (fun acc b => acc * 256 + Byte.to_N b) l 0.

(** [CoreRead::read_int::<T>()] for a [size]-byte unsigned integer: one
    [read] call, [UnexpectedEnd] if it comes back short. *)
Definition read_uint (size : nat) : Reader N :=
  bytes <- read_bytes size ;;
  if Nat.eqb (length bytes) size then ret (be_value bytes)
  else fail (UnexpectedEnd (size - length bytes)).

Definition read_u8 : Reader N := read_uint 1.
Definition read_u16 : Reader N := read_uint 2.

(** Two's complement reading of a 16-bit value. *)
Definition i16_of (v : N) : Z :=
  if v <? 32768 then Z.of_N v else (Z.of_N v - 65536)%Z.

Definition read_i16 : Reader Z := v <- read_u16 ;; ret (i16_of v).

End Err.

(* ================================================================== *)
(** ** The [head] table decoder ([src/tables/head.rs]) *)
(* ================================================================== *)

Module Head.
Import Err.
Local Open Scope string_scope.
Local Open Scope N_scope.

Record Type_ := mkType {
  units_per_em : N;
  smallest_px_size : N;
  style : N;
  long_offset : bool;
}.

(** [data[a..b]]: slicing past the end panics before [try_into] runs. *)
Definition slice (data : list byte) (a b : nat) : Result (list byte) :=
  if Nat.ltb (length data) b then Panic else Ok (firstn (b - a) (skipn a data)).

Definition be_at (data : list byte) (a b : nat) : Result N :=
  bind (slice data a b) (fun l => Ok (be_value l)).

Notation "x <-- m ;; k" := (bind m (fun x => k))
  (at level 100, m at next level, right associativity).

(** [i64::from_be_bytes]. *)
Definition i64_of (v : N) : Z :=
  if v <? 2 ^ 63 then Z.of_N v else (Z.of_N v - 2 ^ 64)%Z.

(** [Display] of [ValidType::LDT(v)] ([src/lib.rs]):
    [chrono::DateTime::from_timestamp( *v + UNIX_DIFF, 0).expect("Invalid Timestamp")].
    [from_timestamp_ok secs] is whether chrono represents [secs] seconds
    after the Unix epoch; the [i64] addition panics on overflow in a checked
    build. *)
Definition ldt_display (from_timestamp_ok : Z -> bool) (v : Z) : Result unit :=
  let secs := (v + 2082888000)%Z in
  if (9223372036854775807 <? secs)%Z then Panic
  else if from_timestamp_ok secs then Ok tt else Panic.

(** [tracing::event!(Level::DEBUG, ...)]: the message is formatted only when
    the active subscriber enables DEBUG. *)
Definition debug_event (debug : bool) (fmt : Result unit) : Result unit :=
  if debug then fmt else Ok tt.

(** [head::parse_table] under a subscriber that enables DEBUG or not. The
    revision event formats an [I16F16], which does not panic, and is left
    out. *)
Definition parse_table_traced (debug : bool) (from_timestamp_ok : Z -> bool) (data : list byte)
    : Result Type_ :=
  major_version <-- be_at data 0 2 ;;
  minor_version <-- be_at data 2 4 ;;
  if negb (major_version =? 1) && negb (minor_version =? 0) then
    Error (InvalidVersion "head" (N.lor (N.shiftl major_version 16) minor_version))
  else
  _font_revision <-- slice data 4 8 ;;
  (* 8..12 - Skip checksumAdjustment, already verified *)
  magic <-- be_at data 12 16 ;;
  if negb (magic =? 0x5f0f3cf5) then Error (Parsing "head::magic" 0x5f0f3cf5 magic)
  else
  units_per_em <-- be_at data 18 20 ;;
  if negb ((16 <=? units_per_em) && (units_per_em <=? 16384)) then
    Error (Parsing "head::unitsPerEm" (if units_per_em <? 16 then 16 else 16384) units_per_em)
  else
  created_time <-- be_at data 20 28 ;;
  modified_time <-- be_at data 28 36 ;;
  _ <-- debug_event debug (ldt_display from_timestamp_ok (i64_of created_time)) ;;
  _ <-- debug_event debug (ldt_display from_timestamp_ok (i64_of modified_time)) ;;
  style <-- be_at data 44 46 ;;
  smallest_px_size <-- be_at data 46 48 ;;
  long_offset <-- be_at data 50 52 ;;
  if 1 <? long_offset then Error (Parsing "head::indexToLocFormat" 1 long_offset)
  else
  glyf_format <-- be_at data 52 54 ;;
  if negb (glyf_format =? 0) then Error (Parsing "head::glyphDataFormat" 0 glyf_format)
  else Ok (mkType units_per_em smallest_px_size style (long_offset =? 1)).

(** [head::parse_table] when no subscriber enables DEBUG (the default of
    [tracing]): the two date events are not formatted. *)
Definition parse_table (data : list byte) : Result Type_ :=
  parse_table_traced false (fun _ => true) data.

(** A 54-byte [head] table with the given version, the right magic number,
    unitsPerEm = 1000 and every other field zero. *)
Definition sample (major minor : list byte) : list byte :=
  major ++ minor ++ repeat x00 8 ++ [x5f; x0f; x3c; xf5] ++ [x00; x00] ++ [x03; xe8]
  ++ repeat x00 34.

End Head.

(* ================================================================== *)
(** ** Name records ([src/tables/name.rs]) *)
(* ================================================================== *)

Module Name.
Import Err.

(** [char::decode_utf16] with every error mapped to U+FFFD: an unpaired
    leading surrogate is replaced and the unit after it is decoded anew. *)
Fixpoint decode_utf16 (us : list N) : list N :=
  match us with
  | [] => []
  | u :: rest =>
      if (u <? 0xD800) || (0xDFFF <? u) then u :: decode_utf16 rest
      else if 0xDC00 <=? u then 0xFFFD :: decode_utf16 rest
      else match rest with
           | u2 :: rest' =>
               if (0xDC00 <=? u2) && (u2 <=? 0xDFFF) then
                 (0x10000 + N.lor (N.shiftl (u - 0xD800) 10) (u2 - 0xDC00)) :: decode_utf16 rest'
               else 0xFFFD :: decode_utf16 rest
           | [] => [0xFFFD]
           end
  end.

(** [char::encode_utf8]. *)
Definition encode_utf8 (c : N) : list N :=
  if c <? 0x80 then [c]
  else if c <? 0x800 then
    [N.lor 0xC0 (N.shiftr c 6); N.lor 0x80 (N.land c 0x3F)]
  else if c <? 0x10000 then
    [N.lor 0xE0 (N.shiftr c 12); N.lor 0x80 (N.land (N.shiftr c 6) 0x3F);
     N.lor 0x80 (N.land c 0x3F)]
  else
    [N.lor 0xF0 (N.shiftr c 18); N.lor 0x80 (N.land (N.shiftr c 12) 0x3F);
     N.lor 0x80 (N.land (N.shiftr c 6) 0x3F); N.lor 0x80 (N.land c 0x3F)].

(** The 16-bit units of a byte string read big-endian: the byte swap on
    little-endian hosts turns the native reading into this one. *)
Fixpoint be_units (bytes : list byte) : list N :=
  match bytes with
  | a :: b :: rest => (Byte.to_N a * 256 + Byte.to_N b) :: be_units rest
  | _ => []
  end.

(** [Record::from_utf16] on the slice [bytes] that starts at address
    [addr]: the UTF-8 bytes of the string. [try_cast_slice_mut] to [[u16]]
    fails, and the [expect] panics, when the slice is not 2-aligned or has
    an odd length. *)
Definition from_utf16 (addr : N) (bytes : list byte) : Result (list N) :=
  if N.odd addr || Nat.odd (length bytes) then Panic
  else Ok (flat_map encode_utf8 (decode_utf16 (be_units bytes))).

(** [Record::from_bytes] (the string field; [name] is passed through).
    The source's pattern is [(0, 3..4, _) | (3, 1 | 10, _)], and [3..4] is
    Rust's exclusive range. *)
Definition from_bytes (platform_id encoding_id _language_id : N) (addr : N) (bytes : list byte)
    : Result (list N) :=
  if ((platform_id =? 0) && (3 <=? encoding_id) && (encoding_id <? 4))
     || ((platform_id =? 3) && ((encoding_id =? 1) || (encoding_id =? 10)))
  then from_utf16 addr bytes
  else Panic. (* "Unrecognised record!" *)

End Name.

(* ================================================================== *)
(** ** Code generic over [R: CoreRead] ([src/types/io.rs]) *)
(* ================================================================== *)

Module Core.
Import Err Io.

(** A function generic over its reader [R: CoreRead] can only call [read]
    (the provided methods [skip] and [read_int] are built on it). Such a
    function is the tree of the [read] calls it makes: [Read n k] asks for
    a [read] into an [n]-byte buffer and continues with the bytes placed in
    it; [Done r] is its return value (or panic). *)
Inductive Prog (A : Type) :=
| Done (r : Result A)
| Read (n : nat) (k : list byte -> Prog A).
Arguments Done {A} r.
Arguments Read {A} n k.

Definition pret {A} (a : A) : Prog A := Done (Ok a).

(** The [?] operator / sequencing. *)
Fixpoint pbind {A B} (p : Prog A) (f : A -> Prog B) : Prog B :=
  match p with
  | Done (Ok a) => f a
  | Done (Error e) => Done (Error e)
  | Done Panic => Done Panic
  | Read n k => Read n (fun got => pbind (k got) f)
  end.

Notation "'let*' x := m 'in' k" := (pbind m (fun x => k))
  (at level 200, x ident, m at level 100, k at level 200).

Definition pmap {A B} (f : A -> B) (p : Prog A) : Prog B := let* a := p in pret (f a).

(** [read(&mut buf)] with an [n]-byte buffer: the bytes placed in it. *)
Definition read_buf (n : nat) : Prog (list byte) := Read n pret.

(** [CoreRead::read_int::<T>()] for a [size]-byte unsigned [T]. *)
Definition read_int (size : nat) : Prog N :=
  Read size (fun bytes =>
    if Nat.eqb (length bytes) size then pret (be_value bytes)
    else Done (Error (UnexpectedEnd (size - length bytes)))).

(** Running a function on a concrete reader, given by its [read]. *)
Fixpoint run {S A} (rd : S -> nat -> S * list byte) (p : Prog A) (s : S) : Result A * S :=
  match p with
  | Done r => (r, s)
  | Read n k => let '(s', got) := rd s n in run rd (k got) s'
  end.

(** [impl Read for &[u8]]. *)
Definition slice_read (src : Source) (n : nat) : Source * list byte :=
  (skipn n src, firstn n src).

(** The [inspect] closure of [ChecksumReader::read]. *)
Definition cr_absorb (r : ChecksumReader) (got : list byte) : ChecksumReader :=
  let '(idx, ck, na) := read_loop (index r) 0 (checksum r) (next_add r) got in
  mkChecksumReader (index r + idx) ck na.

(** [ChecksumReader<'_, R>] over a reader of state [S]. *)
Definition layer_read {S} (rd : S -> nat -> S * list byte)
    (st : ChecksumReader * S) (n : nat) : (ChecksumReader * S) * list byte :=
  let '(r, s) := st in
  let '(s', got) := rd s n in
  ((cr_absorb r got, s'), got).

(** [ChecksumReader::finish] over a reader of state [S]. *)
Definition layer_finish {S} (rd : S -> nat -> S * list byte)
    (st : ChecksumReader * S) : N * S :=
  let remain := (next_multiple_of_4 (index (fst st)) - index (fst st))%nat in
  let '((r', s'), got) := layer_read rd st remain in
  let garbage := got ++ repeat x00 (3 - length got)%nat in
  let next_add := fold_left shift_in (firstn remain garbage) (next_add r') in
  let checksum := if Nat.eqb remain 0%nat then checksum r' else wrapping_add (checksum r') next_add in
  (checksum, s').

(** The provided [CoreRead::skip]: one-byte reads until [skip] bytes are
    read or a read comes back short; [k] counts the bytes still to skip. *)
Fixpoint skip_loop {S} (rd : S -> nat -> S * list byte) (k total : nat) (s : S) : S * nat :=
  match k with
  | O => (s, total)
  | S k' =>
      let '(s', got) := rd s 1%nat in
      let total := (total + length got)%nat in
      if Nat.eqb (length got) 1%nat then skip_loop rd k' total s' else (s', total)
  end.

Definition skip {S} (rd : S -> nat -> S * list byte) (n : nat) (s : S) : S * nat :=
  skip_loop rd n 0 s.

(** Byte-string equality, for tags and magic values. *)
Fixpoint bytes_eqb (a b : list byte) : bool :=
  match a, b with
  | [], [] => true
  | x :: a', y :: b' => Byte.eqb x y && bytes_eqb a' b'
  | _, _ => false
  end.

(** *** Facts about running generic code *)

Lemma run_bind {S A B} (rd : S -> nat -> S * list byte) (p : Prog A) (f : A -> Prog B) s :
  run rd (pbind p f) s =
  let '(r, s') := run rd p s in
  match r with
  | Ok a => run rd (f a) s'
  | Error e => (Error e, s')
  | Panic => (Panic, s')
  end.
Proof.
  revert s. induction p as [[a|e|]|n k IH]; intros s; simpl; [done..|].
  destruct (rd s n) as [s' got]. apply IH.
Qed.

Lemma cr_absorb_fold r got : cr_absorb r got = fold_left ck_step got r.
Proof.
  destruct r as [i c na]. unfold cr_absorb. cbn [index checksum next_add].
  pose proof (read_loop_fold i got 0 c na) as H.
  destruct (read_loop _ _ _ _ _) as [[i' c'] na']. by rewrite Nat.add_0_r in H.
Qed.

Lemma index_fold_ck_step got : forall r,
  index (fold_left ck_step got r) = (index r + length got)%nat.
Proof. induction got as [|b got IH]; intros r; simpl; [lia|]. rewrite IH. simpl. lia. Qed.

Lemma index_cr_absorb r got : index (cr_absorb r got) = (index r + length got)%nat.
Proof. by rewrite cr_absorb_fold, index_fold_ck_step. Qed.

(** Two reader states a [read] cannot tell apart: a [read] on related
    states places the same bytes and leads to related states. *)
Definition rd_compat {S} (RS : S -> S -> Prop) (rd : S -> nat -> S * list byte) : Prop :=
  forall s1 s2 n, RS s1 s2 -> snd (rd s1 n) = snd (rd s2 n) /\ RS (fst (rd s1 n)) (fst (rd s2 n)).

(** A checksum layer over related states: [loose] when only the byte
    counts agree, [tight] when the whole [ChecksumReader]s do. *)
Definition loose {S} (RS : S -> S -> Prop) (st1 st2 : ChecksumReader * S) : Prop :=
  index (fst st1) = index (fst st2) /\ RS (snd st1) (snd st2).
Definition tight {S} (RS : S -> S -> Prop) (st1 st2 : ChecksumReader * S) : Prop :=
  fst st1 = fst st2 /\ RS (snd st1) (snd st2).

Section Compat.
Context {S : Type} (RS : S -> S -> Prop) (rd : S -> nat -> S * list byte).
Hypothesis Hrd : rd_compat RS rd.

Lemma run_compat {A} (p : Prog A) : forall s1 s2, RS s1 s2 ->
  fst (run rd p s1) = fst (run rd p s2) /\ RS (snd (run rd p s1)) (snd (run rd p s2)).
Proof.
  induction p as [r|n k IH]; intros s1 s2 Hs; simpl; [done|].
  destruct (Hrd s1 s2 n Hs) as [Hg Hs'].
  destruct (rd s1 n) as [s1' g1], (rd s2 n) as [s2' g2]; simpl in *. subst g2. by apply IH.
Qed.

Lemma skip_loop_compat k : forall total s1 s2, RS s1 s2 ->
  snd (skip_loop rd k total s1) = snd (skip_loop rd k total s2) /\
  RS (fst (skip_loop rd k total s1)) (fst (skip_loop rd k total s2)).
Proof.
  induction k as [|k IH]; intros total s1 s2 Hs; simpl; [done|].
  destruct (Hrd s1 s2 1%nat Hs) as [Hg Hs'].
  destruct (rd s1 1%nat) as [s1' g1], (rd s2 1%nat) as [s2' g2]; simpl in *. subst g2.
  destruct (Nat.eqb (length g1) 1); [by apply IH|done].
Qed.

Lemma skip_compat n s1 s2 : RS s1 s2 ->
  snd (skip rd n s1) = snd (skip rd n s2) /\ RS (fst (skip rd n s1)) (fst (skip rd n s2)).
Proof. apply skip_loop_compat. Qed.

Lemma layer_loose : rd_compat (loose RS) (layer_read rd).
Proof.
  intros [r1 s1] [r2 s2] n [Hi Hs]; simpl in *.
  destruct (Hrd s1 s2 n Hs) as [Hg Hs'].
  destruct (rd s1 n) as [s1' g1], (rd s2 n) as [s2' g2]; simpl in *. subst g2.
  split; [done|]. split; [|done]. simpl. by rewrite !index_cr_absorb, Hi.
Qed.

Lemma layer_tight : rd_compat (tight RS) (layer_read rd).
Proof.
  intros [r1 s1] [r2 s2] n [Hi Hs]; simpl in *. subst r2.
  destruct (Hrd s1 s2 n Hs) as [Hg Hs'].
  destruct (rd s1 n) as [s1' g1], (rd s2 n) as [s2' g2]; simpl in *. by subst g2.
Qed.

Lemma finish_tight st1 st2 : tight RS st1 st2 ->
  fst (layer_finish rd st1) = fst (layer_finish rd st2) /\
  RS (snd (layer_finish rd st1)) (snd (layer_finish rd st2)).
Proof.
  intros Ht. unfold layer_finish.
  destruct Ht as [Hr Hs]. rewrite <- Hr.
  set (remain := (next_multiple_of_4 (index (fst st1)) - index (fst st1))%nat).
  destruct (layer_tight st1 st2 remain (conj Hr Hs)) as [Hg [Hr' Hs']].
  destruct (layer_read rd st1 remain) as [[r1 s1] g1], (layer_read rd st2 remain) as [[r2 s2] g2].
  simpl in *. by subst g2 r2.
Qed.

End Compat.

Lemma slice_compat : rd_compat eq slice_read.
Proof. by intros s1 s2 n <-. Qed.

Arguments bytes_eqb : simpl never.

End Core.

(* ================================================================== *)
(** ** The table dispatcher ([src/tables/mod.rs]) *)
(* ================================================================== *)

Module Tables.
Import Err Core.

(** [create_table! { glyf, maxp, loca, head, name }] generates one variant
    per listed table, each holding that decoder's [ParsedType]. *)
Inductive Table {Glyf Maxp Loca Head Name : Type} :=
| TGlyf (g : Glyf)
| TMaxp (m : Maxp)
| TLoca (l : Loca)
| THead (h : Head)
| TName (n : Name).
Arguments Table : clear implicits.

(** The tag constants: the ASCII bytes of each listed name. *)
Definition GLYF : list byte := list_byte_of_string "glyf".
Definition MAXP : list byte := list_byte_of_string "maxp".
Definition LOCA : list byte := list_byte_of_string "loca".
Definition HEAD : list byte := list_byte_of_string "head".
Definition NAME : list byte := list_byte_of_string "name".

Section Dispatch.
Context {Glyf Maxp Loca Head Name : Type}.
Local Abbreviation Table := (Table Glyf Maxp Loca Head Name).

(** Each module's [parse_table(allocator, prev_tables, reader)]. *)
Variable glyf_parse : list Table -> Prog Glyf.
Variable maxp_parse : list Table -> Prog Maxp.
Variable loca_parse : list Table -> Prog Loca.
Variable head_parse : list Table -> Prog Head.
Variable name_parse : list Table -> Prog Name.

(** The generated [parse_table]. *)
Definition parse_table (prev_tables : list Table) (tag : list byte) : Prog Table :=
  if bytes_eqb tag GLYF then pmap TGlyf (glyf_parse prev_tables)
  else if bytes_eqb tag MAXP then pmap TMaxp (maxp_parse prev_tables)
  else if bytes_eqb tag LOCA then pmap TLoca (loca_parse prev_tables)
  else if bytes_eqb tag HEAD then pmap THead (head_parse prev_tables)
  else if bytes_eqb tag NAME then pmap TName (name_parse prev_tables)
  else Done (Error (InvalidTag tag)).

End Dispatch.

End Tables.

(* ================================================================== *)
(** ** Opening a font file ([src/font.rs]) *)
(* ================================================================== *)

Module Font.
Import Err Io Core Tables.
Local Open Scope string_scope.
Local Open Scope list_scope.
Local Open Scope N_scope.

(** [verify_header]: the generic reader [input] is a [Prog]. *)
Definition verify_header : Prog N :=
  let* got := read_buf 4%nat in
  (* [version] is a zero-filled [[u8; 4]] the read copies into *)
  let version := got ++ repeat x00 (4 - length got)%nat in
  if negb (bytes_eqb version [x00; x01; x00; x00]) then Done (Error (InvalidSfntVersion version))
  else
  let* num_tables := read_int 2%nat in
  let* search_range := read_int 2%nat in
  (* [2_u16.pow(num_tables.ilog2()) * 16]: [ilog2(0)] panics, the product
     overflows [u16] for [num_tables >= 4096] *)
  if num_tables =? 0 then Done Panic
  else if 65536 <=? 2 ^ N.log2 num_tables * 16 then Done Panic
  else if negb (search_range =? 2 ^ N.log2 num_tables * 16) then
    Done (Error (Parsing "SearchRange" (2 ^ N.log2 num_tables * 16) search_range))
  else
  let* entry_selector := read_int 2%nat in
  if negb (entry_selector =? N.log2 num_tables) then
    Done (Error (Parsing "EntrySelector" (N.log2 num_tables) entry_selector))
  else
  let* range_shift := read_int 2%nat in
  (* [num_tables * 16 - search_range] in [u16] *)
  if 65536 <=? num_tables * 16 then Done Panic
  else if num_tables * 16 <? search_range then Done Panic
  else if negb (range_shift =? num_tables * 16 - search_range) then
    Done (Error (Parsing "RangeShift" (num_tables * 16 - search_range) range_shift))
  else pret num_tables.

(** A table record [(tag, checksum, offset as usize, length as usize)]. *)
Record TableRecord := mkRecord {
  rec_tag : list byte;
  rec_checksum : N;
  rec_offset : nat;
  rec_length : nat;
}.

(** One iteration of the [for _ in 0..num_tables] loop. *)
Definition read_record : Prog TableRecord :=
  let* tag := read_buf 4%nat in
  if negb (Nat.eqb (length tag) 4%nat) then
    Done (Error (UnexpectedEop "TableRecord" (4 - length tag)%nat))
  else
  let* checksum := read_int 4%nat in
  let* offset := read_int 4%nat in
  let* length := read_int 4%nat in
  pret (mkRecord tag checksum (N.to_nat offset) (N.to_nat length)).

Fixpoint read_records (n : nat) : Prog (list TableRecord) :=
  match n with
  | O => pret []
  | S n' => let* r := read_record in let* rs := read_records n' in pret (r :: rs)
  end.

(** [tables.sort_by(|a, b| a.offset.cmp(b.offset))]: a stable sort, here
    insertion sort (an element goes after every element not greater). *)
Fixpoint insert_by_offset (r : TableRecord) (l : list TableRecord) : list TableRecord :=
  match l with
  | [] => [r]
  | r' :: l' =>
      if Nat.leb (rec_offset r') (rec_offset r) then r' :: insert_by_offset r l'
      else r :: l
  end.

Definition sort_by_offset (l : list TableRecord) : list TableRecord :=
  fold_left (fun acc r => insert_by_offset r acc) l [].

(** The reader stack: [reader] is a [ChecksumReader] over the input slice,
    [tag_reader] a [ChecksumReader] over [reader]. *)
Abbreviation Outer := (ChecksumReader * Source)%type.
Definition outer_read : Outer -> nat -> Outer * list byte := layer_read slice_read.
Definition inner_read : ChecksumReader * Outer -> nat -> (ChecksumReader * Outer) * list byte :=
  layer_read outer_read.

Section OpenFont.
Context {Glyf Maxp Loca Head Name : Type}.
Local Abbreviation Table := (Table Glyf Maxp Loca Head Name).
Variable glyf_parse : list Table -> Prog Glyf.
Variable maxp_parse : list Table -> Prog Maxp.
Variable loca_parse : list Table -> Prog Loca.
Variable head_parse : list Table -> Prog Head.
Variable name_parse : list Table -> Prog Name.
(** [head.checksum_adjustment]. *)
Variable checksum_adjustment : Head -> N.

Local Abbreviation parse_table := (parse_table glyf_parse maxp_parse loca_parse head_parse name_parse).

(** The "Checksum invalid!" trace: [Some (checksum, checksum_act)]. *)
Definition mismatch (checksum checksum_act : N) : option (N * N) :=
  if checksum_act =? checksum then None else Some (checksum, checksum_act).

(** The body of [for (tag, checksum, offset, length) in tables]. *)
Definition table_step (parsed_tables : list Table) (checksum_adj : N) (reader : Outer)
    (r : TableRecord) : Result (list Table * N * Outer * option (N * N)) :=
  let total := index (fst reader) in
  if negb (Nat.eqb (rec_offset r) total) && Nat.ltb (rec_offset r) total then Panic
  else
  let reader := if Nat.eqb (rec_offset r) total then reader
                else fst (skip outer_read (rec_offset r - total) reader) in
  let '(parsed, tag_reader) := run inner_read (parse_table parsed_tables (rec_tag r)) (cr_new, reader) in
  if Nat.ltb (rec_length r) (index (fst tag_reader)) then Panic
  else
  let tag_reader := fst (skip inner_read (rec_length r - index (fst tag_reader)) tag_reader) in
  let '(checksum_act, reader) := layer_finish outer_read tag_reader in
  if bytes_eqb (rec_tag r) HEAD then
    match parsed with
    | Ok (THead head) =>
        let checksum_act := wrapping_sub checksum_act (checksum_adjustment head) in
        Ok (parsed_tables ++ [THead head], checksum_adjustment head, reader,
            mismatch (rec_checksum r) checksum_act)
    | Ok _ => Panic (* "head not parsed as head" *)
    | Error e => Error e
    | Panic => Panic
    end
  else
    match parsed with
    | Ok t => Ok (parsed_tables ++ [t], checksum_adj, reader, mismatch (rec_checksum r) checksum_act)
    | Error (InvalidTag _) => Ok (parsed_tables, checksum_adj, reader, mismatch (rec_checksum r) checksum_act)
    | Error e => Error e
    | Panic => Panic
    end.

Fixpoint table_loop (parsed_tables : list Table) (checksum_adj : N) (reader : Outer)
    (log : list (N * N)) (records : list TableRecord)
    : Result (list Table * N * Outer * list (N * N)) :=
  match records with
  | [] => Ok (parsed_tables, checksum_adj, reader, log)
  | r :: rs =>
      match table_step parsed_tables checksum_adj reader r with
      | Ok (t, a, reader', m) =>
          table_loop t a reader' (log ++ from_option (fun x => [x]) [] m) rs
      | Error e => Error e
      | Panic => Panic
      end
  end.

(** [open_font] up to the whole-file check: the parsed tables, the
    [checksum_adj] read from [head], the outer reader and the trace. *)
Definition open_font_tables (input : list byte) : Result (list Table * N * Outer * list (N * N)) :=
  let '(num_tables, reader) := run outer_read verify_header (cr_new, input) in
  match num_tables with
  | Ok n =>
      let '(tables, reader) := run outer_read (read_records (N.to_nat n)) reader in
      match tables with
      | Ok tables => table_loop [] 0 reader [] (sort_by_offset tables)
      | Error e => Error e
      | Panic => Panic
      end
  | Error e => Error e
  | Panic => Panic
  end.

Definition find_head (tables : list Table) : option Head :=
  head (omap (fun t => match t with THead h => Some h | _ => None end) tables).

(** [open_font]. *)
Definition open_font (input : list byte) : Result (list Table) :=
  match open_font_tables input with
  | Ok (parsed_tables, checksum_adj, reader, _) =>
      let checksum := fst (layer_finish slice_read reader) in
      let checksum := match find_head parsed_tables with
                      | Some h => wrapping_sub checksum (checksum_adjustment h)
                      | None => checksum
                      end in
      let checksum := wrapping_sub 0xb1b0afba checksum in
      if negb (checksum =? checksum_adj) then
        Error (Parsing "ChecksumAdjustment" checksum_adj checksum)
      else Ok parsed_tables
  | Error e => Error e
  | Panic => Panic
  end.

(** The outcome of the table loop, the outer reader's running checksum
    (only used by the whole-file check) and the trace left out. *)
Definition outcome (r : Result (list Table * N * Outer * list (N * N)))
    : Result (list Table * N * nat * Source) :=
  match r with
  | Ok (t, a, (o, s), _) => Ok (t, a, index o, s)
  | Error e => Error e
  | Panic => Panic
  end.

(** *** The loop does not look at the declared checksums *)

Definition same_but_checksum (r1 r2 : TableRecord) : Prop :=
  rec_tag r1 = rec_tag r2 /\ rec_offset r1 = rec_offset r2 /\ rec_length r1 = rec_length r2.

Lemma outer_compat : rd_compat (S := Outer) (loose eq) outer_read.
Proof. apply layer_loose, slice_compat. Qed.

Lemma inner_compat : rd_compat (S := ChecksumReader * Outer) (tight (loose eq)) inner_read.
Proof. apply layer_tight, outer_compat. Qed.

Lemma table_step_compat t a (o1 o2 : Outer) r1 r2 :
  loose eq o1 o2 -> same_but_checksum r1 r2 ->
  match table_step t a o1 r1, table_step t a o2 r2 with
  | Ok (t1, a1, o1', _), Ok (t2, a2, o2', _) => t1 = t2 /\ a1 = a2 /\ loose eq o1' o2'
  | Error e1, Error e2 => e1 = e2
  | Panic, Panic => True
  | _, _ => False
  end.
Proof.
  intros Ho [Ht [Hoff Hlen]]. unfold table_step.
  rewrite <- Ht, <- Hoff, <- Hlen. destruct Ho as [Hi Hs]. rewrite <- Hi.
  destruct (negb _ && _); [done|].
  set (rd1 := (if Nat.eqb (rec_offset r1) (index (fst o1)) then o1
              else fst (skip outer_read (rec_offset r1 - index (fst o1)) o1)) : Outer).
  set (rd2 := (if Nat.eqb (rec_offset r1) (index (fst o1)) then o2
              else fst (skip outer_read (rec_offset r1 - index (fst o1)) o2)) : Outer).
  assert (Hrd : loose eq rd1 rd2).
  { subst rd1 rd2. destruct (Nat.eqb _ _); [done|].
    apply (skip_compat _ _ outer_compat). done. }
  destruct (run_compat _ _ inner_compat (parse_table t (rec_tag r1)) (cr_new, rd1) (cr_new, rd2)
              (conj eq_refl Hrd)) as [Hp Htr].
  destruct (run inner_read (parse_table t (rec_tag r1)) (cr_new, rd1)) as [p1 tr1],
           (run inner_read (parse_table t (rec_tag r1)) (cr_new, rd2)) as [p2 tr2].
  simpl in Hp, Htr. subst p2. cbv beta iota.
  destruct tr1 as [c1 x1], tr2 as [c2 x2], Htr as [Hq Hx]. simpl in Hq. subst c2. cbn [fst snd].
  destruct (Nat.ltb _ _); [done|].
  destruct (skip_compat _ _ inner_compat (rec_length r1 - index c1) (c1, x1) (c1, x2)
              (conj eq_refl Hx)) as [_ Htr'].
  destruct (finish_tight _ _ outer_compat _ _ Htr') as [Hc Ho'].
  destruct (layer_finish outer_read (fst (skip inner_read (rec_length r1 - index c1) (c1, x1))))
    as [k1 o1'],
           (layer_finish outer_read (fst (skip inner_read (rec_length r1 - index c1) (c1, x2))))
    as [k2 o2'].
  simpl in Hc, Ho'. subst k2.
  destruct (bytes_eqb _ _).
  - destruct p1 as [[]| |]; done.
  - destruct p1 as [|[]|]; done.
Qed.

Lemma table_loop_compat recs1 recs2 : Forall2 same_but_checksum recs1 recs2 ->
  forall t a (o1 o2 : Outer) log1 log2, loose eq o1 o2 ->
  outcome (table_loop t a o1 log1 recs1) = outcome (table_loop t a o2 log2 recs2).
Proof.
  induction 1 as [|r1 r2 recs1 recs2 Hr Hrecs IH]; intros t a o1 o2 log1 log2 Ho; simpl.
  - destruct o1 as [c1 s1], o2 as [c2 s2], Ho as [Hi Hs]. simpl in *. by rewrite Hi, Hs.
  - pose proof (table_step_compat t a o1 o2 r1 r2 Ho Hr) as H.
    destruct (table_step t a o1 r1) as [[[[t1 a1] o1'] m1]|e1|],
             (table_step t a o2 r2) as [[[[t2 a2] o2'] m2]|e2|]; try done.
    + destruct H as [-> [-> H]]. by apply IH.
    + by subst.
Qed.

Lemma insert_compat r1 r2 l1 l2 : same_but_checksum r1 r2 ->
  Forall2 same_but_checksum l1 l2 ->
  Forall2 same_but_checksum (insert_by_offset r1 l1) (insert_by_offset r2 l2).
Proof.
  intros Hr. induction 1 as [|x1 x2 l1 l2 Hx Hl IH]; simpl; [by constructor; [|constructor]|].
  destruct Hr as (? & Hro & ?), Hx as (? & Hxo & ?). rewrite Hro, Hxo.
  destruct (Nat.leb _ _); constructor; try done; constructor; done.
Qed.

Lemma sort_compat l1 l2 : Forall2 same_but_checksum l1 l2 ->
  Forall2 same_but_checksum (sort_by_offset l1) (sort_by_offset l2).
Proof.
  unfold sort_by_offset. intros Hl.
  assert (H : forall acc1 acc2, Forall2 same_but_checksum acc1 acc2 ->
    Forall2 same_but_checksum (fold_left (fun acc r => insert_by_offset r acc) l1 acc1)
                              (fold_left (fun acc r => insert_by_offset r acc) l2 acc2)).
  { induction Hl as [|x1 x2 l1 l2 Hx Hl IH]; intros acc1 acc2 Hacc; simpl; [done|].
    by apply IH, insert_compat. }
  by apply H.
Qed.

End OpenFont.

(** *** The header and the table directory *)

(** [verify_header] reads the first 12 bytes of the file and nothing else;
    when it succeeds it returns numTables, bytes 4..6. *)
Lemma verify_header_prefix h rest1 rest2 : length h = 12%nat ->
  fst (run outer_read verify_header (cr_new, h ++ rest1)) =
  fst (run outer_read verify_header (cr_new, h ++ rest2)) /\
  (forall n, fst (run outer_read verify_header (cr_new, h ++ rest1)) = Ok n ->
   n = be_value (take 2 (drop 4 h)) /\
   fst (snd (run outer_read verify_header (cr_new, h ++ rest1))) =
   fst (snd (run outer_read verify_header (cr_new, h ++ rest2))) /\
   snd (snd (run outer_read verify_header (cr_new, h ++ rest1))) = rest1 /\
   snd (snd (run outer_read verify_header (cr_new, h ++ rest2))) = rest2).
Proof.
  intros Hl.
  do 12 (destruct h as [|? h]; [discriminate|]). destruct h; [|discriminate].
  cbn; rewrite ?take_0, ?drop_0.
  repeat (case_match; cbn; rewrite ?take_0, ?drop_0 in * );
    (split; [done|intros ? Hn; try discriminate Hn; injection Hn as <-; done]).
Qed.

Lemma read_buf_app n (o : ChecksumReader) h rest : length h = n ->
  run outer_read (read_buf n) (o, h ++ rest) = (Ok h, (cr_absorb o h, rest)).
Proof.
  intros <-. unfold read_buf, run, outer_read, layer_read, slice_read.
  by rewrite take_app_length, drop_app_length.
Qed.

Lemma read_int_app n (o : ChecksumReader) h rest : length h = n ->
  run outer_read (read_int n) (o, h ++ rest) = (Ok (be_value h), (cr_absorb o h, rest)).
Proof.
  intros <-. unfold read_int, run, outer_read, layer_read, slice_read.
  rewrite take_app_length, drop_app_length. by rewrite Nat.eqb_refl.
Qed.

Definition records_rel (r1 r2 : Result (list TableRecord)) : Prop :=
  match r1, r2 with
  | Ok l1, Ok l2 => Forall2 same_but_checksum l1 l2
  | Error e1, Error e2 => e1 = e2
  | Panic, Panic => True
  | _, _ => False
  end.

Lemma same_but_checksum_refl r : same_but_checksum r r.
Proof. done. Qed.

Lemma Forall2_same_refl l : Forall2 same_but_checksum l l.
Proof. induction l; by constructor. Qed.

(** A full 16-byte record. *)
Lemma read_record_full h1 h2 h3 h4 rest (o : ChecksumReader) :
  length h1 = 4%nat -> length h2 = 4%nat -> length h3 = 4%nat -> length h4 = 4%nat ->
  fst (run outer_read read_record (o, h1 ++ h2 ++ h3 ++ h4 ++ rest)) =
    Ok (mkRecord h1 (be_value h2) (N.to_nat (be_value h3)) (N.to_nat (be_value h4))) /\
  index (fst (snd (run outer_read read_record (o, h1 ++ h2 ++ h3 ++ h4 ++ rest)))) =
    (index o + 16)%nat /\
  snd (snd (run outer_read read_record (o, h1 ++ h2 ++ h3 ++ h4 ++ rest))) = rest.
Proof.
  intros H1 H2 H3 H4.
  unfold read_record. rewrite !run_bind.
  rewrite (read_buf_app 4 o h1) by done. rewrite H1. cbn [Nat.eqb negb].
  rewrite run_bind, (read_int_app 4 _ h2) by done.
  rewrite run_bind, (read_int_app 4 _ h3) by done.
  rewrite run_bind, (read_int_app 4 _ h4) by done.
  cbn. split; [done|]. split; [|done]. rewrite !index_cr_absorb. lia.
Qed.

(** The record whose checksum field is [c1] or [c2]. *)
Lemma read_record_checksum pre c1 c2 post (o1 o2 : ChecksumReader) :
  length pre = 4%nat -> length c1 = 4%nat -> length c2 = 4%nat -> index o1 = index o2 ->
  match fst (run outer_read read_record (o1, pre ++ c1 ++ post)),
        fst (run outer_read read_record (o2, pre ++ c2 ++ post)) with
  | Ok r1, Ok r2 => same_but_checksum r1 r2
  | Error e1, Error e2 => e1 = e2
  | Panic, Panic => True
  | _, _ => False
  end /\
  loose eq (snd (run outer_read read_record (o1, pre ++ c1 ++ post)))
           (snd (run outer_read read_record (o2, pre ++ c2 ++ post))).
Proof.
  intros Hp H1 H2 Hi. unfold read_record. rewrite !run_bind.
  rewrite (read_buf_app 4 o1 pre), (read_buf_app 4 o2 pre) by done. rewrite Hp. cbn [Nat.eqb negb].
  rewrite !run_bind, (read_int_app 4 _ c1), (read_int_app 4 _ c2) by done.
  cbv beta iota.
  destruct (run_compat _ _ outer_compat (read_int 4) (cr_absorb (cr_absorb o1 pre) c1, post)
              (cr_absorb (cr_absorb o2 pre) c2, post)) as [Hr Hs].
  { split; [|done]. cbn [fst]. rewrite !index_cr_absorb. lia. }
  rewrite !run_bind.
  destruct (run outer_read (read_int 4) (cr_absorb (cr_absorb o1 pre) c1, post)) as [r1 s1],
           (run outer_read (read_int 4) (cr_absorb (cr_absorb o2 pre) c2, post)) as [r2 s2].
  cbn [fst snd] in Hr, Hs. subst r2.
  destruct r1 as [offset|e|]; cbn [fst snd]; [|done|done].
  destruct (run_compat _ _ outer_compat (read_int 4) s1 s2 Hs) as [Hr' Hs'].
  rewrite !run_bind.
  destruct (run outer_read (read_int 4) s1) as [r1 s1'], (run outer_read (read_int 4) s2) as [r2 s2'].
  cbn [fst snd] in Hr', Hs'. subst r2.
  destruct r1 as [len|e|]; cbn [fst snd run pret]; done.
Qed.

(** The file with the 4 checksum bytes of its [j]-th table record replaced
    by [c] (records start at byte 12 and are 16 bytes long). *)
Definition set_dir_checksum (input : list byte) (j : nat) (c : list byte) : list byte :=
  take (16 + 16 * j)%nat input ++ c ++ drop (20 + 16 * j)%nat input.

Lemma split16 (h : list byte) : length h = 16%nat ->
  h = take 4 h ++ take 4 (drop 4 h) ++ take 4 (drop 8 h) ++ drop 12 h.
Proof. intros Hl. do 16 (destruct h as [|? h]; [discriminate|]). by destruct h. Qed.

(** Reading [n] records when the checksum field of record [m] is [c1] or
    [c2]: the same records but for that checksum, or the same error. *)
Lemma read_records_change n : forall m pre c1 c2 post (o1 o2 : ChecksumReader),
  (m < n)%nat -> length pre = (16 * m + 4)%nat -> length c1 = 4%nat -> length c2 = 4%nat ->
  index o1 = index o2 ->
  records_rel (fst (run outer_read (read_records n) (o1, pre ++ c1 ++ post)))
              (fst (run outer_read (read_records n) (o2, pre ++ c2 ++ post))) /\
  loose eq (snd (run outer_read (read_records n) (o1, pre ++ c1 ++ post)))
           (snd (run outer_read (read_records n) (o2, pre ++ c2 ++ post))).
Proof.
  induction n as [|n IH]; intros m pre c1 c2 post o1 o2 Hm Hp H1 H2 Hi; [lia|].
  cbn [read_records]. rewrite !run_bind.
  destruct m as [|m].
  - assert (Hp' : length pre = 4%nat) by lia.
    destruct (read_record_checksum pre c1 c2 post o1 o2 Hp' H1 H2 Hi) as [Hr Hs].
    destruct (run outer_read read_record (o1, pre ++ c1 ++ post)) as [r1 s1],
             (run outer_read read_record (o2, pre ++ c2 ++ post)) as [r2 s2].
    cbn [fst snd] in Hr, Hs.
    destruct r1 as [rec1|e1|], r2 as [rec2|e2|]; try done.
    + rewrite !run_bind.
      destruct (run_compat _ _ outer_compat (read_records n) s1 s2 Hs) as [Hr' Hs'].
      destruct (run outer_read (read_records n) s1) as [q1 t1],
               (run outer_read (read_records n) s2) as [q2 t2].
      cbn [fst snd] in Hr', Hs'. subst q2.
      destruct q1 as [rs|e|]; cbn; try done.
      split; [|done]. constructor; [done|apply Forall2_same_refl].
  - assert (Hh : length (take 16 pre) = 16%nat) by (rewrite length_take; lia).
    rewrite <- (take_drop 16 pre), <- !app_assoc, (split16 _ Hh), <- !app_assoc.
    set (h := take 16 pre) in *.
    assert (Ha : length (take 4 h) = 4%nat) by (rewrite length_take; lia).
    assert (Hb : length (take 4 (drop 4 h)) = 4%nat) by (rewrite length_take, length_drop; lia).
    assert (Hc : length (take 4 (drop 8 h)) = 4%nat) by (rewrite length_take, length_drop; lia).
    assert (Hd : length (drop 12 h) = 4%nat) by (rewrite length_drop; lia).
    destruct (read_record_full _ _ _ _ (drop 16 pre ++ c1 ++ post) o1 Ha Hb Hc Hd) as (Ha1 & Hb1 & Hc1).
    destruct (read_record_full _ _ _ _ (drop 16 pre ++ c2 ++ post) o2 Ha Hb Hc Hd) as (Ha2 & Hb2 & Hc2).
    destruct (run outer_read read_record
                (o1, take 4 h ++ take 4 (drop 4 h) ++ take 4 (drop 8 h) ++ drop 12 h ++ drop 16 pre ++ c1 ++ post))
      as [r1 [o1' s1]],
             (run outer_read read_record
                (o2, take 4 h ++ take 4 (drop 4 h) ++ take 4 (drop 8 h) ++ drop 12 h ++ drop 16 pre ++ c2 ++ post))
      as [r2 [o2' s2]].
    cbn [fst snd] in *. subst r1 r2 s1 s2.
    rewrite !run_bind.
    assert (Hp2 : length (drop 16 pre) = (16 * m + 4)%nat) by (rewrite length_drop; lia).
    destruct (IH m (drop 16 pre) c1 c2 post o1' o2' ltac:(lia) Hp2 H1 H2 ltac:(lia)) as [Hr Hs].
    destruct (run outer_read (read_records n) (o1', drop 16 pre ++ c1 ++ post)) as [q1 t1],
             (run outer_read (read_records n) (o2', drop 16 pre ++ c2 ++ post)) as [q2 t2].
    cbn [fst snd] in Hr, Hs.
    destruct q1 as [rs1|e1|], q2 as [rs2|e2|]; try done; cbn.
    split; [|done]. by constructor.
Qed.

Section OpenFontFacts.
Context {Glyf Maxp Loca Head Name : Type}.
Local Abbreviation Table := (Table Glyf Maxp Loca Head Name).
Variable glyf_parse : list Table -> Prog Glyf.
Variable maxp_parse : list Table -> Prog Maxp.
Variable loca_parse : list Table -> Prog Loca.
Variable head_parse : list Table -> Prog Head.
Variable name_parse : list Table -> Prog Name.
Variable checksum_adjustment : Head -> N.
Local Abbreviation open_font_tables :=
  (open_font_tables glyf_parse maxp_parse loca_parse head_parse name_parse checksum_adjustment).

Lemma open_font_tables_change h pre c1 c2 post j :
  length h = 12%nat -> length pre = (16 * j + 4)%nat -> length c1 = 4%nat -> length c2 = 4%nat ->
  (j < N.to_nat (be_value (take 2 (drop 4 h))))%nat ->
  outcome (open_font_tables (h ++ pre ++ c1 ++ post)) =
  outcome (open_font_tables (h ++ pre ++ c2 ++ post)).
Proof.
  intros Hh Hp H1 H2 Hj. unfold Font.open_font_tables.
  destruct (verify_header_prefix h (pre ++ c1 ++ post) (pre ++ c2 ++ post) Hh) as [Hr Hok].
  destruct (run outer_read verify_header (cr_new, h ++ pre ++ c1 ++ post)) as [r1 [o1 s1]],
           (run outer_read verify_header (cr_new, h ++ pre ++ c2 ++ post)) as [r2 [o2 s2]].
  cbn [fst snd] in Hr, Hok. subst r2.
  destruct r1 as [n|e|]; [|done|done].
  destruct (Hok n eq_refl) as (-> & <- & -> & ->).
  destruct (read_records_change (N.to_nat (be_value (take 2 (drop 4 h)))) j pre c1 c2 post o1 o1
              Hj Hp H1 H2 eq_refl) as [Hr' Hs'].
  destruct (run outer_read (read_records (N.to_nat (be_value (take 2 (drop 4 h))))) (o1, pre ++ c1 ++ post))
    as [q1 t1],
           (run outer_read (read_records (N.to_nat (be_value (take 2 (drop 4 h))))) (o1, pre ++ c2 ++ post))
    as [q2 t2].
  cbn [fst snd] in Hr', Hs'.
  destruct q1 as [l1|e1|], q2 as [l2|e2|]; try done; cbn in Hr'.
  - apply table_loop_compat; [by apply sort_compat|done].
  - by subst.
Qed.

End OpenFontFacts.

End Font.

(* ================================================================== *)
(** ** When [verify_header] panics *)
(* ================================================================== *)

Module HeaderFacts.
Import Err Io Core Tables Font.

(** A checksum layer passes the bytes through: the result of a generic
    function does not change when its reader is wrapped. *)
Lemma run_layer {S A} (rd : S -> nat -> S * list byte) (p : Prog A) : forall r s,
  fst (run (layer_read rd) p (r, s)) = fst (run rd p s).
Proof.
  induction p as [res|n k IH]; intros r s; simpl; [done|].
  destruct (rd s n) as [s' got]. apply IH.
Qed.

Lemma bytes_eqb_eq a b : bytes_eqb a b = true <-> a = b.
Proof.
  revert b; induction a as [|x a IH]; intros [|y b]; try (split; [discriminate|congruence]);
    [done|].
  change (bytes_eqb (x :: a) (y :: b)) with (Byte.eqb x y && bytes_eqb a b).
  rewrite andb_true_iff, IH. split.
  - intros [Hx ->]. by rewrite (Byte.byte_dec_bl _ _ Hx).
  - intros [= -> ->]. split; [apply Byte.byte_dec_lb|]; done.
Qed.

Lemma pow_log2_le n : n = 0 \/ 2 ^ N.log2 n <= n.
Proof.
  destruct (N.eq_dec n 0) as [|Hn]; [by left|right].
  apply N.log2_spec. lia.
Qed.

Lemma pow_log2_ge n : n < 4096 \/ 4096 <= 2 ^ N.log2 n.
Proof.
  destruct (N.lt_ge_cases n 4096) as [|Hn]; [by left|right].
  apply N.log2_le_mono in Hn. change (N.log2 4096) with 12 in Hn.
  change 4096 with (2 ^ 12). apply N.pow_le_mono_r; lia.
Qed.

Ltac bool_hyps :=
  repeat match goal with
  | H : negb _ = true |- _ => apply negb_true_iff in H
  | H : negb _ = false |- _ => apply negb_false_iff in H
  | H : N.eqb _ _ = true |- _ => apply N.eqb_eq in H
  | H : N.eqb _ _ = false |- _ => apply N.eqb_neq in H
  | H : N.leb _ _ = true |- _ => apply N.leb_le in H
  | H : N.leb _ _ = false |- _ => apply N.leb_gt in H
  | H : N.ltb _ _ = true |- _ => apply N.ltb_lt in H
  | H : N.ltb _ _ = false |- _ => apply N.ltb_ge in H
  | H : Nat.eqb _ _ = true |- _ => apply Nat.eqb_eq in H
  | H : Nat.eqb _ _ = false |- _ => apply Nat.eqb_neq in H
  | H : bytes_eqb _ _ = true |- _ => apply bytes_eqb_eq in H
  | H : bytes_eqb _ _ = false |- _ => apply not_true_iff_false in H; rewrite bytes_eqb_eq in H
  end.

Ltac hdr_branch :=
  bool_hyps;
  first
  [ solve [exfalso; cbn [length] in *; lia]
  | try match goal with H : context [N.log2 ?m] |- _ =>
      pose proof (pow_log2_le m); pose proof (pow_log2_ge m) end;
    split;
    [ intros Hp; first [discriminate Hp | split; [done|split; [cbn; lia|lia]]]
    | intros (Hv & Hl & Hn); try congruence; lia ] ].

(** [verify_header] on a slice panics exactly when the version is 1.0, the
    8 bytes up to searchRange are present, and numTables is 0 ([ilog2(0)])
    or at least 4096 ([2_u16.pow(..) * 16] overflows). *)
Lemma verify_header_panics (input : list byte) :
  fst (run slice_read verify_header input) = Panic <->
  take 4 input = [x00; x01; x00; x00] /\ (8 <= length input)%nat /\
  (be_value (take 2 (drop 4 input)) = 0 \/ 4096 <= be_value (take 2 (drop 4 input))).
Proof.
  do 8 (destruct input as [|? input];
        [cbn; rewrite ?take_0, ?drop_0; repeat (case_match; cbn; rewrite ?take_0, ?drop_0 in * );
         hdr_branch|]).
  cbn; rewrite ?take_0, ?drop_0.
  repeat (case_match; cbn; rewrite ?take_0, ?drop_0 in * ); hdr_branch.
Qed.

End HeaderFacts.

(* ================================================================== *)
(** ** Simple glyphs ([src/tables/glyf.rs]) *)
(* ================================================================== *)

Module Glyf.
Import Err.

(** [Flags]. *)
Definition ON_CURVE : N := 1.
Definition REPEAT : N := 8.
Definition X_SHORT : N := 2.
Definition X_SIGN_SKIP : N := 16.
Definition Y_SHORT : N := 4.
Definition Y_SIGN_SKIP : N := 32.

(** [Glyph]: the bounds as [(min, max)], a point as [(x, y, on_curve)]. *)
Record Glyph := mkGlyph {
  num_contours : Z;
  x_bounds : Z * Z;
  y_bounds : Z * Z;
  end_pts : list N;
  points : list (Z * Z * bool);
}.

(** What the loop body pushes for a glyph of nonzero length: a decoded
    simple glyph, or (for [num_contours < 0]) a clone of [glyphs[0]]. *)
Inductive Body :=
| Simple (g : Glyph)
| Composite.

(** [for _ in 0..n { v.push(reader.read_int()?) }]. *)
Fixpoint read_n {A} (n : nat) (m : Reader A) : Reader (list A) :=
  match n with
  | O => ret []
  | S n' => a <- m ;; rest <- read_n n' m ;; ret (a :: rest)
  end.

(** The [while flags_vec.len() != num_points] loop. Each round reads at
    least one byte or fails, so with more [fuel] than bytes left the
    [fuel = 0] case is never reached. *)
Fixpoint read_flags (fuel num_points : nat) (flags_vec : list N) : Reader (list N) :=
  match fuel with
  | O => fail (UnexpectedEnd 1)
  | S fuel' =>
      if Nat.eqb (length flags_vec) num_points then ret flags_vec
      else
      flags <- read_u8 ;;
      repeat_count <- (if negb (N.land flags REPEAT =? 0) then (r <- read_u8 ;; ret (1 + r))
                       else ret 1) ;;
      (* [flags & !Flags::REPEAT] on a [u8] *)
      read_flags fuel' num_points
        (flags_vec ++ List.repeat (N.land flags (N.lxor REPEAT 255)) (N.to_nat repeat_count))
  end.

(** One arm of [read_coords!]: [(short, sign_skip)]. *)
Definition read_coord (short sign_skip : N) (flags : N) : Reader Z :=
  match negb (N.land flags short =? 0), negb (N.land flags sign_skip =? 0) with
  | true, false => v <- read_u8 ;; ret (- Z.of_N v)%Z
  | true, true => v <- read_u8 ;; ret (Z.of_N v)
  | false, false => read_i16
  | false, true => ret 0%Z
  end.

(** [read_coords!]: one value per flag, in order. *)
Fixpoint read_coords (short sign_skip : N) (flags_vec : list N) : Reader (list Z) :=
  match flags_vec with
  | [] => ret []
  | f :: fs => v <- read_coord short sign_skip f ;; vs <- read_coords short sign_skip fs ;; ret (v :: vs)
  end.

Definition on_curve (f : N) : bool := negb (N.land f ON_CURVE =? 0).

(** [izip!(flags_vec, x_coords, y_coords).map(|(f, x, y)| (x, y, f & ON_CURVE != 0))]. *)
Fixpoint izip3 (fs : list N) (xs ys : list Z) : list (Z * Z * bool) :=
  match fs, xs, ys with
  | f :: fs', x :: xs', y :: ys' => (x, y, on_curve f) :: izip3 fs' xs' ys'
  | _, _, _ => []
  end.

(** The loop body of [glyf::parse_table] from [num_contours] on, once the
    reader stands at the glyph's offset. *)
Definition read_glyph : Reader Body :=
  num_contours <- read_i16 ;;
  x_min <- read_i16 ;;
  y_min <- read_i16 ;;
  x_max <- read_i16 ;;
  y_max <- read_i16 ;;
  if (num_contours <? 0)%Z then ret Composite
  else
  end_pts <- read_n (Z.to_nat num_contours) read_u16 ;;
  num_instructions <- read_u16 ;;
  _instructions <- read_n (N.to_nat num_instructions) read_u8 ;;
  match last end_pts with
  | None => panic (* "No points in Glyph" *)
  | Some e =>
      let num_points := (N.to_nat e + 1)%nat in
      flags_vec <- (fun src => read_flags (S (length src)) num_points [] src) ;;
      x_coords <- read_coords X_SHORT X_SIGN_SKIP flags_vec ;;
      y_coords <- read_coords Y_SHORT Y_SIGN_SKIP flags_vec ;;
      ret (Simple (mkGlyph num_contours (x_min, x_max) (y_min, y_max) end_pts
                     (izip3 flags_vec x_coords y_coords)))
  end.

(** The reading of the coordinates as running sums of the decoded values. *)
Fixpoint running_sums (acc : Z) (ds : list Z) : list Z :=
  match ds with
  | [] => []
  | d :: ds' => (acc + d)%Z :: running_sums (acc + d) ds'
  end.

(** A glyph of one contour and two points (end point 1, no instructions),
    both with flags 0x33: on curve, x short and positive, y repeated. The x
    bytes are 1 and 1. *)
Definition two_point_glyph : list byte :=
  [x00; x01; x00; x00; x00; x00; x00; x00; x00; x00;
   x00; x01; x00; x00; x33; x33; x01; x01].

(** *** Facts *)

Lemma read_flags_length fuel n : forall acc src fs rest,
  read_flags fuel n acc src = Ok (fs, rest) -> length fs = n.
Proof.
  induction fuel as [|fuel IH]; intros acc src fs rest H; cbn in H; [discriminate|].
  destruct (Nat.eqb (length acc) n) eqn:E; unfold ret, rbind, bind in H.
  - injection H as <- _. by apply Nat.eqb_eq.
  - 
    destruct (read_u8 src) as [[f s1]| |]; [|discriminate..].
    destruct (negb _); cbv beta iota in H.
    + destruct (read_u8 s1) as [[r s2]| |]; [|discriminate..]. cbv beta iota in H. eapply IH, H.
    + eapply IH, H.
Qed.

Lemma read_coords_length sh sg fs : forall src vs rest,
  read_coords sh sg fs src = Ok (vs, rest) -> length vs = length fs.
Proof.
  induction fs as [|f fs IH]; intros src vs rest H; cbn in H; unfold ret, rbind, bind in H.
  - by injection H as <- _.
  - 
    destruct (read_coord sh sg f src) as [[v s1]| |]; [|discriminate..].
    destruct (read_coords sh sg fs s1) as [[vs' s2]| |] eqn:E; [|discriminate..].
    injection H as <- _. cbn. f_equal. eapply IH, E.
Qed.

Lemma izip3_proj fs : forall xs ys, length xs = length fs -> length ys = length fs ->
  map (fun p => fst (fst p)) (izip3 fs xs ys) = xs /\
  map (fun p => snd (fst p)) (izip3 fs xs ys) = ys /\
  map snd (izip3 fs xs ys) = map on_curve fs.
Proof.
  induction fs as [|f fs IH]; intros [|x xs] [|y ys] Hx Hy; cbn in *; try done.
  destruct (IH xs ys) as (-> & -> & ->); [lia|lia|done].
Qed.

End Glyf.

(* ================================================================== *)
(** ** Iteration and the secondary map ([src/types/slotmap.rs]) *)
(* ================================================================== *)

Module SlotmapMore.
Import Slotmap.

(** The key [index << 16 | version] of a slot. *)
Definition make_key (index version : N) : Key := N.lor (N.shiftl index 16) version.

Section More.
Context {T : Type}.

(** [Slotmap::kv_iter], collected: the slots with an odd version, in index
    order, with the key [u32::try_from(i)? << u16::BITS | version] (the
    shift drops the bits past 32) and the value read from the union.
    [None] is a panic ([try_from] failing) or a read of the [next_free]
    field of the union. *)
Fixpoint kv_from (i : nat) (l : list (SlotContent T * N)) : option (list (Key * T)) :=
  match l with
  | [] => Some []
  | (c, v) :: l' =>
      if v mod 2 =? 1 then
        if 2 ^ 32 <=? N.of_nat i then None
        else
          match c with
          | Value x =>
              rest ← kv_from (S i) l';
              Some ((N.lor (N.land (N.shiftl (N.of_nat i) 16) (N.ones 32)) v, x) :: rest)
          | NextFree _ => None
          end
      else kv_from (S i) l'
  end.

Definition kv_iter (s : Slotmap T) : option (list (Key * T)) := kv_from 0 (slots s).

(** [SecondaryMap]: [items[i]] is [Some (value, version | 1)] or [None]. *)
Record SecondaryMap := mkSecondaryMap {
  items : list (option (T * N));
  sm_num_elems : N;
}.

Definition sm_new : SecondaryMap := mkSecondaryMap [] 0.

(** [SecondaryMap::contains]: [items.get(index).unwrap_or(&None)]. *)
Definition sm_contains (m : SecondaryMap) (key : Key) : bool :=
  match items m !! N.to_nat (key_index key) with
  | Some (Some (_, prev_ver)) => prev_ver =? key_version key
  | _ => false
  end.

(** [Vec::resize_with(n, || None)]: truncates or pads to length [n]. *)
Definition resize_with {A} (n : nat) (x : A) (l : list A) : list A :=
  take n l ++ replicate (n - length l) x.

(** [SecondaryMap::insert]. *)
Definition sm_insert (m : SecondaryMap) (key : Key) (value : T) : SecondaryMap :=
  let version := key_version key in
  let index := N.to_nat (key_index key) in
  let items' := resize_with (Nat.max (N.to_nat (sm_num_elems m)) (index + 1)) None (items m) in
  mkSecondaryMap (<[index := Some (value, N.lor version 1)]> items') (sm_num_elems m).

(** [SecondaryMap::get] (and [get_mut]); [None] is the panic of
    [self.items[index]] out of bounds. *)
Definition sm_get (m : SecondaryMap) (key : Key) : option (option T) :=
  if negb (sm_contains m key) then Some None
  else
    match items m !! N.to_nat (key_index key) with
    | Some e => Some (fst <$> e)
    | None => None
    end.

(** A sequence of inserts into a new map. *)
Definition sm_inserts (l : list (Key * T)) : SecondaryMap :=
  fold_left (fun m kv => sm_insert m kv.1 kv.2) l sm_new.

End More.

Arguments SecondaryMap : clear implicits.

(** *** Facts *)

Lemma make_key_spec i v : v < 65536 ->
  make_key i v = i * 65536 + v.
Proof.
  intros Hv. unfold make_key. rewrite N.shiftl_mul_pow2.
  assert (Hd : N.land (i * 2 ^ 16) v = 0).
  { apply N.bits_inj_iff. intros j. rewrite N.land_spec, N.bits_0.
    destruct (N.lt_ge_cases j 16) as [Hj|Hj].
    - rewrite <- N.shiftl_mul_pow2. by rewrite N.shiftl_spec_low.
    - rewrite <- (N.mod_small v (2 ^ 16)) by (simpl; lia).
      rewrite (N.mod_pow2_bits_high v 16 j) by lia. apply andb_false_r. }
  rewrite <- N.lxor_lor, <- N.add_nocarry_lxor by exact Hd. simpl. lia.
Qed.

Lemma key_index_make i v : v < 65536 -> key_index (make_key i v) = i.
Proof.
  intros Hv. rewrite make_key_spec by done. unfold key_index.
  rewrite N.shiftr_div_pow2. change (2 ^ 16) with 65536.
  rewrite N.div_add_l by lia. rewrite N.div_small by lia. lia.
Qed.

Lemma key_version_make i v : v < 65536 -> key_version (make_key i v) = v.
Proof.
  intros Hv. rewrite make_key_spec by done. unfold key_version.
  change 0xffff with (N.ones 16). rewrite N.land_ones. change (2 ^ 16) with 65536.
  rewrite N.Div0.add_mod, N.Div0.mod_mul, N.add_0_l, !N.mod_small; lia.
Qed.

Lemma key_version_lt key : key_version key < 65536.
Proof.
  unfold key_version. change 0xffff with (N.ones 16). rewrite N.land_ones.
  apply N.mod_lt. lia.
Qed.

Lemma kv_from_in {T} (l : list (SlotContent T * N)) : forall i r k x,
  kv_from i l = Some r -> In (k, x) r ->
  exists j v, l !! j = Some (Value x, v) /\ N.of_nat (i + j) < 2 ^ 32 /\
    k = N.lor (N.land (N.shiftl (N.of_nat (i + j)) 16) (N.ones 32)) v.
Proof.
  induction l as [|[c v] l IH]; intros i r k x H Hin; cbn in H.
  - injection H as <-. destruct Hin.
  - destruct (v mod 2 =? 1).
    + destruct (2 ^ 32 <=? N.of_nat i) eqn:Hi; [discriminate|].
      destruct c as [y|]; [|discriminate].
      destruct (kv_from (S i) l) as [r'|] eqn:Hr; [|discriminate].
      injection H as <-. destruct Hin as [Heq|Hin].
      * injection Heq as <- <-. exists 0%nat, v. rewrite Nat.add_0_r.
        split; [done|]. split; [|done]. apply N.leb_gt in Hi. lia.
      * destruct (IH _ _ _ _ Hr Hin) as (j & w & Hj & Hlt & ->).
        exists (S j), w. rewrite <- Nat.add_succ_comm. done.
    + destruct (IH _ _ _ _ H Hin) as (j & w & Hj & Hlt & ->).
      exists (S j), w. rewrite <- Nat.add_succ_comm. done.
Qed.

Lemma lor_1 v : N.lor v 1 = 2 * N.div2 v + 1.
Proof.
  apply N.bits_inj_iff. intros j. rewrite N.lor_spec.
  destruct (N.zero_or_succ j) as [->|[n ->]].
  - rewrite N.testbit_odd_0. apply orb_true_r.
  - rewrite N.testbit_odd_succ by lia. rewrite <- !N.testbit_div2.
    change (N.div2 1) with 0. rewrite N.bits_0. apply orb_false_r.
Qed.

Lemma sm_inserts_num {T} (l : list (Key * T)) : sm_num_elems (sm_inserts l) = 0.
Proof.
  unfold sm_inserts. assert (H : forall m, sm_num_elems m = 0 ->
    sm_num_elems (fold_left (fun m kv => sm_insert m kv.1 kv.2) l m) = 0).
  { induction l as [|kv l IH]; intros m Hm; cbn; [done|]. by apply IH. }
  by apply H.
Qed.

End SlotmapMore.

(* ================================================================== *)
(** ** The [maxp] and [loca] decoders ([src/tables/maxp.rs], [src/tables/loca.rs]) *)
(* ================================================================== *)

Module Maxp.
Import Err Head.
Local Open Scope string_scope.
Local Open Scope N_scope.

(** [maxp::Type] (the hidden [_Phantom] variant is never built). *)
Inductive Type_ :=
| Ver05 (num_glyphs : N)
| Ver10 (num_glyphs : N).

Definition num_glyphs (m : Type_) : N :=
  match m with Ver05 n | Ver10 n => n end.

(** [maxp::parse_table]: [data[..4]] and [data[4..6]] panic on a short
    table before their [try_into] could fail. *)
Definition parse_table (data : list byte) : Result Type_ :=
  packed_ver <-- be_at data 0 4 ;;
  if packed_ver =? 0x00005000 then
    n <-- be_at data 4 6 ;; Ok (Ver05 n)
  else if packed_ver =? 0x00010000 then
    n <-- be_at data 4 6 ;; Ok (Ver10 n)
  else Error (InvalidVersion "maxp" packed_ver).

End Maxp.

Module Loca.
Import Err Core Tables.
Local Open Scope string_scope.
Local Open Scope N_scope.

(** [loca::Type]: the [u32] offsets. *)
Record Type_ := mkType { offsets : list N }.

(** [Type::len]: [self.offsets.len() - 1], which underflows on an empty
    vector. *)
Definition len (l : Type_) : Result nat :=
  if Nat.eqb (length (offsets l)) 0 then Panic else Ok (length (offsets l) - 1)%nat.

(** [Type::index]: the assertion, then [offsets[idx + 1] - offsets[idx]]
    on [u32] (an underflow panics). *)
Definition index (l : Type_) (idx : nat) : Result (N * N) :=
  bind (len l) (fun n =>
  if negb (Nat.ltb idx n) then Panic (* assert!(idx < self.offsets.len() - 1) *)
  else
    match offsets l !! idx, offsets l !! S idx with
    | Some a, Some b => if b <? a then Panic else Ok (a, b - a)
    | _, _ => Panic
    end).

(** The two [for offset in &mut offsets] loops, over [k] entries, [prev]
    being the offset before them. A decreasing offset is reported with
    [ValidType::U32(prev + 1)], whose addition overflows for
    [prev = u32::MAX]. *)
Fixpoint read_offsets (long_offset : bool) (k : nat) (prev : N) : Prog (list N) :=
  match k with
  | O => pret []
  | S k' =>
      let* offset := (if long_offset then read_int 4
                      else pmap (fun half => half * 2) (read_int 2)) in
      if offset <? prev then
        if 2 ^ 32 <=? prev + 1 then Done Panic
        else Done (Error (Parsing "loca" (prev + 1) offset))
      else
        let* rest := read_offsets long_offset k' offset in
        pret (offset :: rest)
  end.

Section Parse.
Context {G L Nm : Type}.
Local Abbreviation Table := (Tables.Table G Maxp.Type_ L Head.Type_ Nm).

(** [prev_tables.iter().find(|v| matches!(v, Table::Head(_)))], and the
    same for [Maxp]. *)
Definition find_head (ts : list Table) : option Head.Type_ :=
  head (omap (fun t => match t with THead h => Some h | _ => None end) ts).
Definition find_maxp (ts : list Table) : option Maxp.Type_ :=
  head (omap (fun t => match t with TMaxp m => Some m | _ => None end) ts).

(** [loca::parse_table]. *)
Definition parse_table (prev_tables : list Table) : Prog Type_ :=
  match find_head prev_tables with
  | None => Done (Error (MissingTable "head" "loca"))
  | Some head =>
      match find_maxp prev_tables with
      | None => Done (Error (MissingTable "maxp" "loca"))
      | Some maxp =>
          let num_glyphs := (N.to_nat (Maxp.num_glyphs maxp) + 1)%nat in
          let* offsets := read_offsets (Head.long_offset head) num_glyphs 0 in
          pret (mkType offsets)
      end
  end.

End Parse.

(** Adjacent entries do not decrease: what [loca::parse_table] checks. *)
Definition nondecreasing (l : list N) : Prop :=
  forall i a b, l !! i = Some a -> l !! S i = Some b -> a <= b.

(** [u32::to_be_bytes]. *)
Definition byte_of (v : N) : byte :=
  match Byte.of_N (v mod 256) with Some b => b | None => x00 end.
Definition u32_be (v : N) : list byte :=
  [byte_of (N.shiftr v 24); byte_of (N.shiftr v 16); byte_of (N.shiftr v 8); byte_of v].

(** *** Facts *)

Lemma byte_of_spec v : Byte.to_N (byte_of v) = v mod 256.
Proof.
  unfold byte_of. destruct (Byte.of_N (v mod 256)) eqn:E.
  - by apply Byte.to_of_N.
  - apply Byte.of_N_None_iff in E. pose proof (N.mod_lt v 256). lia.
Qed.

Lemma be_value_u32_be v : v < 2 ^ 32 -> be_value (u32_be v) = v.
Proof.
  intros Hv. unfold u32_be, be_value. cbn [fold_left].
  rewrite !byte_of_spec, !N.shiftr_div_pow2.
  change (2 ^ 24) with 16777216 in *. change (2 ^ 16) with 65536.
  change (2 ^ 8) with 256. change (2 ^ 32) with 4294967296 in Hv.
  pose proof (N.div_mod v 256 ltac:(lia)) as H1.
  pose proof (N.div_mod (v / 256) 256 ltac:(lia)) as H2.
  pose proof (N.div_mod (v / 65536) 256 ltac:(lia)) as H3.
  rewrite N.Div0.div_div in H2. change (256 * 256) with 65536 in H2.
  rewrite N.Div0.div_div in H3. change (65536 * 256) with 16777216 in H3.
  rewrite (N.mod_small (v / 16777216)) by (apply N.Div0.div_lt_upper_bound; lia).
  lia.
Qed.

Lemma read_offsets_ok {St} (rd : St -> nat -> St * list byte) long k : forall prev s offs s',
  run rd (read_offsets long k prev) s = (Ok offs, s') ->
  length offs = k /\ Forall (fun o => prev <= o) offs /\
  forall i a b, offs !! i = Some a -> offs !! S i = Some b -> a <= b.
Proof.
  induction k as [|k IH]; intros prev s offs s' H; cbn [read_offsets] in H.
  - injection H as <- _. split; [done|]. split; [constructor|]. intros i a b Ha. done.
  - rewrite run_bind in H.
    destruct (run rd _ s) as [[o| |] s1]; [|discriminate..].
    destruct (o <? prev) eqn:Ho; [destruct (2 ^ 32 <=? prev + 1); discriminate|].
    apply N.ltb_ge in Ho. rewrite run_bind in H.
    destruct (run rd (read_offsets long k o) s1) as [[rest| |] s2] eqn:Hr; [|discriminate..].
    injection H as <- _. destruct (IH _ _ _ _ Hr) as (Hl & Hf & Hs).
    split; [cbn; lia|]. split.
    + constructor; [done|]. eapply Forall_impl; [exact Hf|]. cbn. lia.
    + intros [|i] a b Ha Hb; cbn in Ha, Hb.
      * injection Ha as <-. destruct rest as [|c rest]; [discriminate|].
        injection Hb as ->. by inversion Hf.
      * by apply (Hs i).
Qed.

End Loca.

(* ================================================================== *)
(** ** The [glyf] table loop ([src/tables/glyf.rs]) *)
(* ================================================================== *)

Module GlyfTable.
Import Err Core Glyf.
Local Open Scope N_scope.

(** The glyph pushed for an entry of length 0. *)
Definition empty_glyph : Glyph := mkGlyph 0 (0, 0)%Z (0, 0)%Z [] [].

(** The [for idx in 0..loca.len()] loop of [glyf::parse_table] on a slice
    reader wrapped in a [TrackingReader]: [total] is [reader.total_read()],
    the number of bytes taken from the slice so far. [prev_complex] only
    selects a trace message and is left out. *)
Fixpoint glyf_loop (loca : Loca.Type_) (idxs : list nat) (glyphs : list Glyph)
    (total : nat) (src : list byte) : Result (list Glyph) :=
  match idxs with
  | [] => Ok glyphs
  | idx :: idxs' =>
      bind (Loca.index loca idx) (fun '(offset, len) =>
      if len =? 0 then glyf_loop loca idxs' (glyphs ++ [empty_glyph]) total src
      else
        let off := N.to_nat offset in
        (* [loca.index(idx).0 as usize - reader.total_read()] *)
        if Nat.ltb off total then Panic
        else
          let '(src1, skipped) := skip slice_read (off - total) src in
          let total := (total + skipped)%nat in
          if negb (Nat.eqb total off) then Error (UnexpectedEop "glyf" (off - total))
          else
            match read_glyph src1 with
            | Ok (Simple g, src2) =>
                glyf_loop loca idxs' (glyphs ++ [g]) (total + (length src1 - length src2)) src2
            | Ok (Composite, src2) =>
                (* [glyphs.push(glyphs[0].clone())] *)
                match glyphs !! 0%nat with
                | Some g0 =>
                    glyf_loop loca idxs' (glyphs ++ [g0]) (total + (length src1 - length src2)) src2
                | None => Panic
                end
            | Error e => Error e
            | Panic => Panic
            end)
  end.

Section Parse.
Context {M H Nm : Type}.
Local Abbreviation Table := (Tables.Table (list Glyph) M Loca.Type_ H Nm).

(** [prev_tables.iter().find(|v| matches!(v, Table::Loca(_)))]. *)
Definition find_loca (ts : list Table) : option Loca.Type_ :=
  head (omap (fun t => match t with Tables.TLoca l => Some l | _ => None end) ts).

(** [glyf::parse_table] on a slice reader. *)
Definition parse_table (prev_tables : list Table) (src : list byte) : Result (list Glyph) :=
  match find_loca prev_tables with
  | None => Error (MissingTable "loca" "glyf")
  | Some loca => bind (Loca.len loca) (fun n => glyf_loop loca (seq 0 n) [] 0 src)
  end.

End Parse.

(** *** Facts *)

Lemma glyf_loop_ok loca idxs : forall glyphs total src gs,
  glyf_loop loca idxs glyphs total src = Ok gs ->
  exists new, gs = glyphs ++ new /\ length new = length idxs /\
    forall j idx o, idxs !! j = Some idx -> Loca.index loca idx = Ok (o, 0) ->
      new !! j = Some empty_glyph.
Proof.
  induction idxs as [|idx idxs IH]; intros glyphs total src gs H; cbn [glyf_loop] in H.
  - injection H as <-. exists []. rewrite app_nil_r. split; [done|]. split; [done|].
    intros j idx o Hj. done.
  - destruct (Loca.index loca idx) as [[o len]| |] eqn:Hi; cbn [bind] in H; try discriminate.
    destruct (len =? 0) eqn:Hl.
    + destruct (IH _ _ _ _ H) as (new & -> & Hlen & Hnew).
      exists (empty_glyph :: new). rewrite <- app_assoc. split; [done|].
      split; [cbn; lia|]. intros [|j] idx' o' Hj Hi'; cbn in Hj |- *; [done|].
      by eapply Hnew.
    + apply N.eqb_neq in Hl.
      destruct (Nat.ltb _ total); [discriminate|].
      destruct (skip slice_read _ src) as [src1 skipped].
      destruct (negb _); [discriminate|].
      destruct (read_glyph src1) as [[[g|] src2]| |]; try discriminate.
      * destruct (IH _ _ _ _ H) as (new & -> & Hlen & Hnew).
        exists (g :: new). rewrite <- app_assoc. split; [done|].
        split; [cbn; lia|]. intros [|j] idx' o' Hj Hi'; cbn in Hj |- *.
        -- injection Hj as <-. rewrite Hi in Hi'. injection Hi' as _ ->. done.
        -- by eapply Hnew.
      * destruct (glyphs !! 0%nat) as [g0|]; [|discriminate].
        destruct (IH _ _ _ _ H) as (new & -> & Hlen & Hnew).
        exists (g0 :: new). rewrite <- app_assoc. split; [done|].
        split; [cbn; lia|]. intros [|j] idx' o' Hj Hi'; cbn in Hj |- *.
        -- injection Hj as <-. rewrite Hi in Hi'. injection Hi' as _ ->. done.
        -- by eapply Hnew.
Qed.

End GlyfTable.

(* ================================================================== *)
(** ** The [name] table ([src/tables/name.rs]) *)
(* ================================================================== *)

Module NameTable.
Import Err Core.
Local Open Scope N_scope.

(** [RecordType] ([_Reserved] is [Reserved]). *)
Inductive RecordType :=
| Copyright | Family | Subfamily | UniqueIdentifier | Full | Version | PostScript
| Trademark | Manufacturer | Designer | Description | VendorURL | DesignerURL
| License | LicenseURL | TypographicFamily | TypographicSubfamily | CompatFull
| Sample | PostScriptCID | WWSFamily | WWSSubFamily | LightPalette | DarkPalette
| PostScriptVariations | Reserved
| FontSpecific (v : N).

(** [impl From<u16> for RecordType]; [unreachable!] is a panic. *)
Definition record_type_of (value : N) : Result RecordType :=
  match value with
  | 0 => Ok Copyright | 1 => Ok Family | 2 => Ok Subfamily | 3 => Ok UniqueIdentifier
  | 4 => Ok Full | 5 => Ok Version | 6 => Ok PostScript | 7 => Ok Trademark
  | 8 => Ok Manufacturer | 9 => Ok Designer | 10 => Ok Description | 11 => Ok VendorURL
  | 12 => Ok DesignerURL | 13 => Ok License | 14 => Ok LicenseURL
  | 16 => Ok TypographicFamily | 17 => Ok TypographicSubfamily | 18 => Ok CompatFull
  | 19 => Ok Sample | 20 => Ok PostScriptCID | 21 => Ok WWSFamily | 22 => Ok WWSSubFamily
  | 23 => Ok LightPalette | 24 => Ok DarkPalette | 25 => Ok PostScriptVariations
  | _ =>
      if value <? 256 then Ok Reserved (* 15 | 26..256 *)
      else if value <=? 32767 then Ok (FontSpecific value)
      else Panic (* "Invalid Name ID" *)
  end.

(** One NameRecord: [(platform, encoding, language, name, begin, end)]. *)
Definition read_record_info : Reader (N * N * N * N * nat * nat) :=
  platform <- read_u16 ;;
  encoding <- read_u16 ;;
  language <- read_u16 ;;
  name <- read_u16 ;;
  length <- read_u16 ;;
  offset <- read_u16 ;;
  let begin := N.to_nat offset in
  ret (platform, encoding, language, name, begin, (begin + N.to_nat length)%nat).

(** One LangTagRecord: the end [offset + length] of its string. *)
Definition read_tag_end : Reader nat :=
  length <- read_u16 ;;
  offset <- read_u16 ;;
  ret (N.to_nat offset + N.to_nat length)%nat.

Definition info_end (i : N * N * N * N * nat * nat) : nat :=
  let '(_, _, _, _, _, e) := i in e.

(** The reads through the [TrackingReader]: [storageOffset], the records
    and [storage_area_length]. *)
Definition read_header : Reader (N * list (N * N * N * N * nat * nat) * nat) :=
  version <- read_u16 ;;
  num_records <- read_u16 ;;
  storage_offset <- read_u16 ;;
  records_info <- Glyf.read_n (N.to_nat num_records) read_record_info ;;
  let storage_area_length := fold_left (fun m i => Nat.max m (info_end i)) records_info 0%nat in
  storage_area_length <-
    (if version =? 1 then
       num_tag_records <- read_u16 ;;
       ends <- Glyf.read_n (N.to_nat num_tag_records) read_tag_end ;;
       ret (fold_left Nat.max ends storage_area_length)
     else ret storage_area_length) ;;
  ret (storage_offset, records_info, storage_area_length).

(** The second loop: one [Record::from_bytes] per record, on
    [storage_area[begin..end]]; the storage area starts at address
    [storage_addr], so that slice starts at [storage_addr + begin]. *)
Fixpoint build_records (storage_addr : N) (storage : list byte)
    (infos : list (N * N * N * N * nat * nat)) : Result (list (RecordType * list N)) :=
  match infos with
  | [] => Ok []
  | (platform_id, encoding_id, language_id, name_id, b, e) :: rest =>
      bind (record_type_of name_id) (fun name =>
      if Nat.ltb e b || Nat.ltb (length storage) e then Panic
      else
        bind (Name.from_bytes platform_id encoding_id language_id (storage_addr + N.of_nat b)
                (take (e - b) (drop b storage)))
          (fun string =>
        bind (build_records storage_addr storage rest) (fun records => Ok ((name, string) :: records))))
  end.

(** [name::parse_table] on a slice reader: [current_index] is the count of
    the [TrackingReader]; the skip and the read of the storage area go to
    the slice itself. [storage_addr] is the address the allocator gives the
    boxed storage area (a dangling, 1-aligned pointer when it is empty). *)
Definition parse_table (storage_addr : N) (src : list byte) : Result (list (RecordType * list N)) :=
  match read_header src with
  | Ok ((storage_offset, records_info, storage_area_length), src1) =>
      let current_index := (length src - length src1)%nat in
      let so := N.to_nat storage_offset in
      bind (if Nat.eqb so current_index then Ok src1
            (* [storage_offset as usize - current_index] *)
            else if Nat.ltb so current_index then Panic
            else Ok (fst (skip slice_read (so - current_index) src1)))
        (fun src2 =>
      let storage_area := take storage_area_length src2 in
      if Nat.ltb (length storage_area) storage_area_length then
        Error (UnexpectedEop "name::storage_area" (storage_area_length - length storage_area))
      else build_records storage_addr storage_area records_info)
  | Error e => Error e
  | Panic => Panic
  end.

(** UTF-16 encoding of a Unicode scalar value, and the big-endian bytes of
    a 16-bit unit. *)
Definition encode_utf16 (c : N) : list N :=
  if c <? 0x10000 then [c]
  else [0xD800 + N.shiftr (c - 0x10000) 10; 0xDC00 + N.land (c - 0x10000) 0x3FF].
Definition u16_be (u : N) : list byte := [Loca.byte_of (N.shiftr u 8); Loca.byte_of u].

Definition scalar (c : N) : Prop := c < 0x110000 /\ (c < 0xD800 \/ 0xDFFF < c).

(** *** Facts *)

Lemma lor_shiftl_small q r k : r < 2 ^ k -> N.lor (N.shiftl q k) r = q * 2 ^ k + r.
Proof.
  intros Hr. rewrite N.shiftl_mul_pow2.
  assert (Hd : N.land (q * 2 ^ k) r = 0).
  { apply N.bits_inj_iff. intros j. rewrite N.land_spec, N.bits_0.
    destruct (N.lt_ge_cases j k) as [Hj|Hj].
    - rewrite <- N.shiftl_mul_pow2. by rewrite N.shiftl_spec_low.
    - rewrite <- (N.mod_small r (2 ^ k)) by done.
      rewrite (N.mod_pow2_bits_high r k j) by lia. apply andb_false_r. }
  rewrite <- N.lxor_lor, <- N.add_nocarry_lxor by exact Hd. done.
Qed.

Lemma read_u16_ok src v s' :
  read_u16 src = Ok (v, s') -> v = be_value (take 2 src) /\ s' = drop 2 src /\ (2 <= length src)%nat.
Proof.
  unfold read_u16, read_uint, read_bytes, rbind, bind, ret, fail.
  rewrite length_take. destruct (Nat.eqb _ 2) eqn:E; [|discriminate].
  intros [= <- <-]. apply Nat.eqb_eq in E. split; [done|]. split; [done|]. lia.
Qed.

Lemma read_n_length {A} (m : Reader A) c k :
  (forall src a s', m src = Ok (a, s') -> length src = (length s' + c)%nat) ->
  forall src xs s', Glyf.read_n k m src = Ok (xs, s') ->
  length xs = k /\ length src = (length s' + k * c)%nat.
Proof.
  intros Hm. induction k as [|k IH]; intros src xs s' H; cbn [Glyf.read_n] in H;
    unfold ret, rbind, bind in H.
  - injection H as <- <-. split; [done|]. lia.
  - destruct (m src) as [[a s1]| |] eqn:E1; [|discriminate..].
    destruct (Glyf.read_n k m s1) as [[xs' s2]| |] eqn:E2; [|discriminate..].
    injection H as <- <-. apply Hm in E1. destruct (IH _ _ _ E2) as [Hl Hs].
    split; [cbn; lia|]. lia.
Qed.

Lemma read_record_info_length src a s' :
  read_record_info src = Ok (a, s') -> length src = (length s' + 12)%nat.
Proof.
  unfold read_record_info, rbind at 1, bind at 1.
  destruct (read_u16 src) as [[v1 s1]| |] eqn:E1; [|discriminate..].
  apply read_u16_ok in E1 as (_ & -> & L1).
  unfold rbind at 1, bind at 1.
  destruct (read_u16 (drop 2 src)) as [[v2 s2]| |] eqn:E2; [|discriminate..].
  apply read_u16_ok in E2 as (_ & -> & L2).
  unfold rbind at 1, bind at 1.
  destruct (read_u16 (drop 2 (drop 2 src))) as [[v3 s3]| |] eqn:E3; [|discriminate..].
  apply read_u16_ok in E3 as (_ & -> & L3).
  unfold rbind at 1, bind at 1.
  destruct (read_u16 (drop 2 (drop 2 (drop 2 src)))) as [[v4 s4]| |] eqn:E4; [|discriminate..].
  apply read_u16_ok in E4 as (_ & -> & L4).
  unfold rbind at 1, bind at 1.
  destruct (read_u16 (drop 2 (drop 2 (drop 2 (drop 2 src))))) as [[v5 s5]| |] eqn:E5; [|discriminate..].
  apply read_u16_ok in E5 as (_ & -> & L5).
  unfold rbind at 1, bind at 1.
  destruct (read_u16 (drop 2 (drop 2 (drop 2 (drop 2 (drop 2 src)))))) as [[v6 s6]| |] eqn:E6;
    [|discriminate..].
  apply read_u16_ok in E6 as (_ & -> & L6).
  unfold ret. intros [= _ <-]. rewrite !length_drop in *. lia.
Qed.

End NameTable.

(* ================================================================== *)
(** ** Properties of the specification *)
(* ================================================================== *)

Section SlotmapClaims.
Import Slotmap.

(** C2: starting from [Slotmap::new] and after any sequence of [push] and
    [try_pop] calls, [get] yields a value for a key only when the slot at
    the key's index carries exactly the key's version; and once [try_pop k]
    has removed a value, [k] never validates again ([contains k] is false
    and [get k] is [None]) whatever calls follow. *)
Theorem slotmap_generation_check {T : Type} (ops1 ops2 : list (@op T))
    (s s' s'' : Slotmap T) (k : Key) (x : T) :
  run new ops1 = Some s ->
  (forall k' y, get s k' = Some (Some y) ->
     exists c, slots s !! N.to_nat (key_index k') = Some (c, key_version k')) /\
  (try_pop s k = Some (s', Some x) -> run s' ops2 = Some s'' ->
     contains s'' k = Some false /\ get s'' k = Some None).
Proof.
  intros _. split.
  - intros k' y Hg. unfold get in Hg.
    destruct (contains s k') as [[|]|] eqn:Hc; try discriminate.
    by apply contains_true.
  - intros Hp Hr.
    destruct (try_pop_some_slot _ _ _ _ Hp) as [c Hl].
    destruct (run_versions_grow _ _ _ Hr) as [_ Hg].
    destruct (Hg _ _ _ Hl) as (c' & v' & Hl' & Hle).
    assert (Hcf : contains s'' k = Some false) by (eapply contains_stale; [exact Hl'|lia]).
    split; [done|]. unfold get. by rewrite Hcf.
Qed.

Lemma slotmap_generation_check_witness :
  run (@new N) [OpPush 10; OpPush 20] = Some (mkSlotmap [(Value 10, 1); (Value 20, 1)] 1 2) /\
  try_pop (mkSlotmap [(Value (10 : N), 1); (Value 20, 1)] 1 2) 1
    = Some (mkSlotmap [(NextFree 1, 2); (Value 20, 1)] 1 2, Some 10) /\
  run (mkSlotmap [(NextFree 1, 2); (Value (20 : N), 1)] 1 2) [OpPush 30]
    = Some (mkSlotmap [(NextFree 1, 2); (Value 20, 1); (Value 30, 1)] 2 3) /\
  contains (mkSlotmap [(NextFree 1, 2); (Value (20 : N), 1); (Value 30, 1)] 2 3) 1 = Some false /\
  get (mkSlotmap [(NextFree 1, 2); (Value (20 : N), 1); (Value 30, 1)] 2 3) 1 = Some None.
Proof.
  split; [reflexivity|]. split; [reflexivity|]. split; [reflexivity|].
  exact (proj2 (slotmap_generation_check [OpPush 10; OpPush 20] [OpPush 30] _ _ _ 1 10 eq_refl)
           eq_refl eq_refl).
Defined.

(** C3 (refuted): after [push 10] (slot 0, key 1) and [push 20] (slot 1),
    [try_pop 1] empties slot 0, but [try_pop] never makes slot 0 the head
    of the free list ([self.next_free] is left at 1), so the next [push]
    appends a third slot and returns a key of index 2, while slot 0 stays
    vacant with version 2. *)
Lemma slotmap_pop_then_push_appends :
  run (@new N) [OpPush 10; OpPush 20] = Some (mkSlotmap [(Value 10, 1); (Value 20, 1)] 1 2) /\
  try_pop (mkSlotmap [(Value (10 : N), 1); (Value 20, 1)] 1 2) 1
    = Some (mkSlotmap [(NextFree 1, 2); (Value 20, 1)] 1 2, Some 10) /\
  push (mkSlotmap [(NextFree 1, 2); (Value (20 : N), 1)] 1 2) 30
    = Some (mkSlotmap [(NextFree 1, 2); (Value 20, 1); (Value 30, 1)] 2 3, 131073) /\
  key_index 131073 = 2 /\ key_index 131073 <> 0.
Proof. repeat split; [reflexivity..|discriminate]. Qed.

(** C4 (code bug): [contains] tests [self.slots.len() < index], so a key
    whose index equals the number of slots reaches [self.slots[index]] and
    panics. On a new arena (one slot) the key [1 << 16] (index 1, version 0)
    makes [contains] and [get] panic instead of answering false / [None]. *)
Lemma slotmap_contains_index_len_panics :
  key_index 65536 = N.of_nat (length (slots (@new N))) /\
  contains (@new N) 65536 = None /\ get (@new N) 65536 = None.
Proof. repeat split. Qed.

End SlotmapClaims.

Section ChecksumClaims.
Import Io.

(** C5 (refuted as stated): [finish] does not stop at the consumed bytes.
    After one byte [01] has been read, [finish] reads the three bytes
    [05 05 05] that follow from the underlying source and folds them in, so
    the source is left empty and the result is not the zero-padded word
    [0x01000000]. *)
Lemma checksum_finish_reads_on :
  cr_reads cr_new [x01; x05; x05; x05] [1%nat] = (mkChecksumReader 1 0 1, [x05; x05; x05]) /\
  cr_finish (mkChecksumReader 1 0 1) [x05; x05; x05] = (101321226, []) /\
  padded_word_sum [x01] = 16777216 /\ 101321226 <> 16777216.
Proof. repeat split; [reflexivity..|discriminate]. Qed.

(** C5 (as amended): after any sequence of reads that consumed the bytes
    [data] (n of them, r = n mod 4), [finish] reads the next (4 - r) mod 4
    bytes of the source, if present, through the reader. It returns the
    wrapping sum of the big-endian words of [data] zero-padded to a multiple
    of 4 when r = 0, when the source is exhausted, or when r is 1 or 2 and
    the source holds all (4 - r) of the following bytes and they are zero. *)
Theorem checksum_finish_zero_padded (data rest : list byte) (sizes : list nat) :
  sum_list sizes = length data -> padding_ok (length data) rest ->
  let '(r, src) := cr_reads cr_new (data ++ rest) sizes in
  cr_finish r src = (padded_word_sum data, skipn (pad_len (length data)) rest).
Proof.
  intros Hs Hpad. rewrite cr_reads_fold by exact Hs. unfold cr_new.
  rewrite (finish_fold (length data)); auto; [|lia].
  f_equal. unfold wrapping_add. rewrite N.add_0_l. apply N.mod_small, padded_word_sum_lt.
Qed.

Lemma checksum_finish_zero_padded_witness :
  sum_list [2%nat; 4%nat] = length [x12; x34; x56; x78; x9a; xbc] /\
  padding_ok (length [x12; x34; x56; x78; x9a; xbc]) [x00; x00; xff] /\
  cr_finish (fst (cr_reads cr_new ([x12; x34; x56; x78; x9a; xbc] ++ [x00; x00; xff]) [2%nat; 4%nat]))
            (snd (cr_reads cr_new ([x12; x34; x56; x78; x9a; xbc] ++ [x00; x00; xff]) [2%nat; 4%nat]))
  = (padded_word_sum [x12; x34; x56; x78; x9a; xbc], [xff]).
Proof.
  assert (Hs : sum_list [2%nat; 4%nat] = length [x12; x34; x56; x78; x9a; xbc]) by reflexivity.
  assert (Hp : padding_ok (length [x12; x34; x56; x78; x9a; xbc]) [x00; x00; xff]).
  { right. split; [discriminate|reflexivity]. }
  split; [exact Hs|]. split; [exact Hp|].
  pose proof (checksum_finish_zero_padded _ _ _ Hs Hp) as H.
  destruct (cr_reads _ _ _) as [r src]. exact H.
Defined.

End ChecksumClaims.

Section FontClaims.
Import Err Io Core Tables Font.
Context {Glyf Maxp Loca Head Name : Type}.
Variable glyf_parse : list (Table Glyf Maxp Loca Head Name) -> Prog Glyf.
Variable maxp_parse : list (Table Glyf Maxp Loca Head Name) -> Prog Maxp.
Variable loca_parse : list (Table Glyf Maxp Loca Head Name) -> Prog Loca.
Variable head_parse : list (Table Glyf Maxp Loca Head Name) -> Prog Head.
Variable name_parse : list (Table Glyf Maxp Loca Head Name) -> Prog Name.
Variable checksum_adjustment : Head -> N.

(** C6: overwriting the declared checksum of the [j]-th table record (any
    4 bytes [c]; the file's numTables is above [j]) changes neither the
    result of [open_font] before its whole-file check nor the position and
    state the reader reaches: the same tables are decoded and kept, with
    the same [checksum_adj]; only the trace of mismatches may differ. *)
Theorem open_font_ignores_table_checksums (input c : list byte) (j : nat) :
  length c = 4%nat -> (20 + 16 * j <= length input)%nat ->
  (j < N.to_nat (be_value (take 2 (drop 4 input))))%nat ->
  outcome (open_font_tables glyf_parse maxp_parse loca_parse head_parse name_parse
             checksum_adjustment (set_dir_checksum input j c)) =
  outcome (open_font_tables glyf_parse maxp_parse loca_parse head_parse name_parse
             checksum_adjustment input).
Proof.
  intros Hc Hlen Hj.
  set (pre := take (4 + 16 * j) (drop 12 input)).
  set (c0 := take 4 (drop (4 + 16 * j) (drop 12 input))).
  set (post := drop (8 + 16 * j) (drop 12 input)).
  assert (E1 : take (16 + 16 * j) input = take 12 input ++ pre).
  { subst pre. rewrite <- (take_app_add' (take 12 input) (drop 12 input) 12 (4 + 16 * j))
      by (rewrite length_take; lia).
    rewrite take_drop. f_equal. }
  assert (E2 : drop (20 + 16 * j) input = post).
  { subst post. rewrite drop_drop. f_equal. }
  assert (Hin : input = take 12 input ++ pre ++ c0 ++ post).
  { subst pre c0 post.
    assert (E3 : drop (8 + 16 * j) (drop 12 input) = drop 4 (drop (4 + 16 * j) (drop 12 input)))
      by (rewrite !drop_drop; f_equal; lia).
    by rewrite E3, !take_drop. }
  assert (Hn : take 2 (drop 4 (take 12 input)) = take 2 (drop 4 input)).
  { rewrite !take_drop_commute, take_take. done. }
  unfold set_dir_checksum. rewrite E1, E2, <- app_assoc.
  assert (HR : open_font_tables glyf_parse maxp_parse loca_parse head_parse name_parse
                 checksum_adjustment input =
               open_font_tables glyf_parse maxp_parse loca_parse head_parse name_parse
                 checksum_adjustment (take 12 input ++ pre ++ c0 ++ post))
    by (f_equal; exact Hin).
  rewrite HR.
  apply open_font_tables_change with (j := j).
  - rewrite length_take. lia.
  - subst pre. rewrite length_take, length_drop. lia.
  - done.
  - subst c0. rewrite length_take, !length_drop. lia.
  - by rewrite Hn.
Qed.

End FontClaims.

Definition unit_decoder {T} : list T -> Core.Prog unit :=
  fun _ => Core.Read 2 (fun _ => Core.pret tt).

(** A file of one [maxp] table (4 bytes at offset 28) whose declared
    checksum is 0. *)
Definition one_table_font : list byte :=
  [x00; x01; x00; x00; x00; x01; x00; x10; x00; x00; x00; x00] ++
  Tables.MAXP ++ [x00; x00; x00; x00; x00; x00; x00; x1c; x00; x00; x00; x04; x01; x02; x03; x04].

Lemma open_font_ignores_table_checksums_witness :
  length [x00; x00; x00; x01] = 4%nat /\ (20 + 16 * 0 <= length one_table_font)%nat /\
  (0 < N.to_nat (Err.be_value (take 2 (drop 4 one_table_font))))%nat /\
  Font.outcome (Font.open_font_tables unit_decoder unit_decoder unit_decoder unit_decoder unit_decoder
             (fun _ => 0) (Font.set_dir_checksum one_table_font 0 [x00; x00; x00; x01])) =
  Font.outcome (Font.open_font_tables unit_decoder unit_decoder unit_decoder unit_decoder unit_decoder
             (fun _ => 0) one_table_font).
Proof.
  assert (H1 : length [x00; x00; x00; x01] = 4%nat) by reflexivity.
  assert (H2 : (20 + 16 * 0 <= length one_table_font)%nat) by (vm_compute; lia).
  assert (H3 : (0 < N.to_nat (Err.be_value (take 2 (drop 4 one_table_font))))%nat) by (vm_compute; lia).
  split; [exact H1|]. split; [exact H2|]. split; [exact H3|].
  exact (open_font_ignores_table_checksums unit_decoder unit_decoder unit_decoder unit_decoder unit_decoder
           (fun _ => 0) one_table_font _ 0 H1 H2 H3).
Defined.

Section HeadClaims.
Import Err Head.

(** C7 (code bug): the version test is [major_version != 1 &&
    minor_version != 0], so a version is rejected only when both parts are
    wrong. A [head] table with version (2, 0), or (1, 5), otherwise valid,
    is decoded without error, while (2, 5) is rejected. *)
Lemma head_version_check_needs_both_wrong :
  parse_table (sample [x00; x02] [x00; x00]) = Ok (mkType 1000 0 0 false) /\
  parse_table (sample [x00; x01] [x00; x05]) = Ok (mkType 1000 0 0 false) /\
  parse_table (sample [x00; x02] [x00; x05]) = Error (InvalidVersion "head" 0x20005).
Proof. repeat split. Qed.

End HeadClaims.

Section NameClaims.
Import Err Name.

(** C8 (code bug): the accepted pattern is [(0, 3..4, _) | (3, 1 | 10, _)]
    and [3..4] is exclusive, so platform 0 with encoding 4 reaches the
    [panic!("Unrecognised record!")] arm, while (0, 3) decodes the same
    bytes (the UTF-16 unit 0x0054, "T"), here a slice at address 0. *)
Lemma name_platform0_encoding4_panics :
  from_bytes 0 4 0 0 [x00; x54] = Panic /\
  from_bytes 0 3 0 0 [x00; x54] = Ok [0x54] /\
  from_bytes 3 1 0 0 [x00; x54] = Ok [0x54] /\
  from_bytes 3 10 0 0 [x00; x54] = Ok [0x54].
Proof. repeat split. Qed.

End NameClaims.

Section HeaderClaims.
Import Err Io Core Tables Font HeaderFacts.

(** C10 (refuted as stated): a numTables field of 0 does not always lead
    to the [ilog2(0)] panic, since [searchRange] is read first: with the 6
    bytes [00 01 00 00 00 00] that read comes back empty and the result is
    [UnexpectedEnd], and with a wrong version the result is
    [InvalidSfntVersion]. *)
Lemma verify_header_zero_tables_no_panic :
  fst (run slice_read verify_header [x00; x01; x00; x00; x00; x00]) = Error (UnexpectedEnd 2) /\
  fst (run slice_read verify_header [x00; x02; x00; x00; x00; x00; x00; x10])
    = Error (InvalidSfntVersion [x00; x02; x00; x00]).
Proof. split; reflexivity. Qed.

Context {Glyf Maxp Loca Head Name : Type}.
Variable glyf_parse : list (Table Glyf Maxp Loca Head Name) -> Prog Glyf.
Variable maxp_parse : list (Table Glyf Maxp Loca Head Name) -> Prog Maxp.
Variable loca_parse : list (Table Glyf Maxp Loca Head Name) -> Prog Loca.
Variable head_parse : list (Table Glyf Maxp Loca Head Name) -> Prog Head.
Variable name_parse : list (Table Glyf Maxp Loca Head Name) -> Prog Name.
Variable checksum_adjustment : Head -> N.

(** C10 (as amended): for a numTables field below 4096, [verify_header] on
    a slice panics exactly when the version bytes are 00 01 00 00, the 8
    bytes up to searchRange are present, and numTables is 0 ([ilog2(0)]);
    in that case [open_font] panics as well. For numTables from 1 to 4095
    [verify_header] returns a value or an error. *)
Theorem verify_header_panic_iff (input : list byte) :
  be_value (take 2 (drop 4 input)) < 4096 ->
  (fst (run slice_read verify_header input) = Panic <->
   take 4 input = [x00; x01; x00; x00] /\ (8 <= length input)%nat /\
   be_value (take 2 (drop 4 input)) = 0) /\
  (take 4 input = [x00; x01; x00; x00] /\ (8 <= length input)%nat /\
   be_value (take 2 (drop 4 input)) = 0 ->
   open_font glyf_parse maxp_parse loca_parse head_parse name_parse checksum_adjustment input = Panic).
Proof.
  intros Hn.
  assert (Hiff : fst (run slice_read verify_header input) = Panic <->
    take 4 input = [x00; x01; x00; x00] /\ (8 <= length input)%nat /\
    be_value (take 2 (drop 4 input)) = 0).
  { rewrite verify_header_panics.
    split; intros (Hv & Hl & Hz); (split; [done|split; [done|]]); [lia|by left]. }
  split; [exact Hiff|].
  intros Hc. apply Hiff in Hc.
  unfold open_font, open_font_tables, outer_read.
  pose proof (run_layer slice_read verify_header cr_new input) as E.
  destruct (run (layer_read slice_read) verify_header (cr_new, input)) as [r o].
  cbn [fst] in E. rewrite Hc in E. by subst r.
Qed.

End HeaderClaims.

Lemma verify_header_panic_iff_witness :
  (Err.be_value (take 2 (drop 4 [x00; x01; x00; x00; x00; x00; x00; x10])) < 4096 /\
   take 4 [x00; x01; x00; x00; x00; x00; x00; x10] = [x00; x01; x00; x00] /\
   (8 <= length [x00; x01; x00; x00; x00; x00; x00; x10])%nat /\
   Err.be_value (take 2 (drop 4 [x00; x01; x00; x00; x00; x00; x00; x10])) = 0) /\
  Font.open_font unit_decoder unit_decoder unit_decoder unit_decoder unit_decoder (fun _ => 0)
    [x00; x01; x00; x00; x00; x00; x00; x10] = Err.Panic.
Proof.
  assert (Hn : Err.be_value (take 2 (drop 4 [x00; x01; x00; x00; x00; x00; x00; x10])) < 4096)
    by (vm_compute; reflexivity).
  assert (Hc : take 4 [x00; x01; x00; x00; x00; x00; x00; x10] = [x00; x01; x00; x00] /\
   (8 <= length [x00; x01; x00; x00; x00; x00; x00; x10])%nat /\
   Err.be_value (take 2 (drop 4 [x00; x01; x00; x00; x00; x00; x00; x10])) = 0)
    by (split; [reflexivity|split; [cbn; lia|reflexivity]]).
  split; [split; [exact Hn | exact Hc]|].
  exact (proj2 (verify_header_panic_iff unit_decoder unit_decoder unit_decoder unit_decoder unit_decoder
                  (fun _ => 0) _ Hn) Hc).
Defined.

Section TableClaims.
Import Err Core Tables HeaderFacts.
Context {Glyf Maxp Loca Head Name : Type}.
Variable glyf_parse : list (Table Glyf Maxp Loca Head Name) -> Prog Glyf.
Variable maxp_parse : list (Table Glyf Maxp Loca Head Name) -> Prog Maxp.
Variable loca_parse : list (Table Glyf Maxp Loca Head Name) -> Prog Loca.
Variable head_parse : list (Table Glyf Maxp Loca Head Name) -> Prog Head.
Variable name_parse : list (Table Glyf Maxp Loca Head Name) -> Prog Name.


End TableClaims.



Section GlyfClaims.
Import Err Glyf.

(** C1 (refuted as stated): the points hold the decoded per-point values
    themselves, not their running sums. In [two_point_glyph] both points
    are decoded with x = +1, and the glyph's points have x = 1 and x = 1,
    where running sums would give 1 and 2. *)
Lemma glyph_points_not_running_sums :
  read_glyph two_point_glyph =
    Ok (Simple (mkGlyph 1%Z (0%Z, 0%Z) (0%Z, 0%Z) [1%N] [(1%Z, 0%Z, true); (1%Z, 0%Z, true)]), []) /\
  map (fun p => fst (fst p)) [(1%Z, 0%Z, true); (1%Z, 0%Z, true)] = [1; 1]%Z /\
  running_sums 0%Z [1; 1]%Z = [1; 2]%Z.
Proof. repeat split. Qed.

Ltac step H :=
  match type of H with
  | match ?m with Ok _ => _ | Error _ => _ | Panic => _ end = _ =>
      let E := fresh "E" in
      destruct m as [[? ?]| |] eqn:E; [cbv beta iota in H|discriminate H|discriminate H]
  end.

Lemma read_uint_drop size src v s' : read_uint size src = Ok (v, s') -> s' = drop size src.
Proof.
  unfold read_uint, read_bytes, rbind, bind, ret, fail.
  destruct (Nat.eqb _ _); [|discriminate]. by intros [= _ <-].
Qed.

Lemma read_i16_drop src v s' : read_i16 src = Ok (v, s') -> s' = drop 2 src.
Proof.
  unfold read_i16, rbind at 1, bind at 1.
  destruct (read_u16 src) as [[w s1]| |] eqn:E; [|discriminate..].
  unfold ret. intros [= _ <-]. by apply read_uint_drop in E.
Qed.

Lemma read_n_drop {A} (m : Reader A) c :
  (forall src a s', m src = Ok (a, s') -> s' = drop c src) ->
  forall k src xs s', read_n k m src = Ok (xs, s') -> s' = drop (k * c) src /\ length xs = k.
Proof.
  intros Hm. induction k as [|k IH]; intros src xs s' H; cbn [read_n] in H;
    unfold ret, rbind, bind in H.
  - injection H as <- <-. by rewrite drop_0.
  - destruct (m src) as [[a s1]| |] eqn:E1; [|discriminate..].
    destruct (read_n k m s1) as [[xs' s2]| |] eqn:E2; [|discriminate..].
    injection H as <- <-. apply Hm in E1 as ->. destruct (IH _ _ _ E2) as [-> Hl].
    rewrite drop_drop. split; [f_equal; lia|cbn; lia].
Qed.

(** C1 (as amended): when the loop body decodes a simple glyph from [src],
    the glyph has last(end_pts) + 1 points. The flag pass runs on the bytes
    that follow the header, the end points, instructionLength and the
    instructions ([s0] below), the x pass of [read_coords!] on what the flag
    pass leaves, and the y pass on what the x pass leaves. The x of the i-th
    point is the i-th value of the x pass (for a short coordinate the byte
    with the sign the flag gives, for a long one the [i16] read, or 0 when
    the skip bit is set: the per-point delta), the y likewise for the y
    pass, and the on-curve bit is bit 0 of the point's flags. *)
Theorem glyph_points_are_deltas (src : list byte) (g : Glyph) (rest : list byte) :
  read_glyph src = Ok (Simple g, rest) ->
  let hdr := (10 + 2 * length (end_pts g))%nat in
  let s0 := drop (hdr + 2 + N.to_nat (be_value (take 2 (drop hdr src)))) src in
  exists e flags_vec s1 xs s2 ys,
    last (end_pts g) = Some e /\
    read_flags (S (length s0)) (N.to_nat e + 1) [] s0 = Ok (flags_vec, s1) /\
    length flags_vec = (N.to_nat e + 1)%nat /\
    read_coords X_SHORT X_SIGN_SKIP flags_vec s1 = Ok (xs, s2) /\
    read_coords Y_SHORT Y_SIGN_SKIP flags_vec s2 = Ok (ys, rest) /\
    length (points g) = (N.to_nat e + 1)%nat /\
    map (fun p => fst (fst p)) (points g) = xs /\
    map (fun p => snd (fst p)) (points g) = ys /\
    map snd (points g) = map on_curve flags_vec.
Proof.
  intros H hdr s0. unfold read_glyph, rbind, bind, ret, panic in H.
  do 5 step H.
  destruct (_ <? 0)%Z; [discriminate H|].
  do 3 step H.
  destruct (last _) as [e|] eqn:Hl; [|discriminate H].
  do 3 step H.
  injection H as <- <-.
  repeat match goal with
  | E : read_i16 _ = Ok (_, ?s') |- _ => apply read_i16_drop in E; subst s'
  end.
  match goal with
  | E : read_n _ read_u16 _ = Ok (_, ?s') |- _ =>
      apply (read_n_drop _ 2 (fun s a s' H => read_uint_drop 2 s a s' H)) in E as [? Hlen]; subst s'
  end.
  match goal with
  | E : read_u16 _ = Ok (_, ?s') |- _ =>
      apply NameTable.read_u16_ok in E as (Hni & ? & _); subst s'
  end.
  match goal with
  | E : read_n _ read_u8 _ = Ok (_, ?s') |- _ =>
      apply (read_n_drop _ 1 (fun s a s' H => read_uint_drop 1 s a s' H)) in E as [? _]; subst s'
  end.
  subst. cbn [end_pts points] in hdr, s0 |- *.
  rewrite !drop_drop in *.
  unfold s0, hdr. clear s0 hdr. rewrite Hlen.
  match goal with
  | Hlen : length _ = Z.to_nat ?z, Ef : read_flags _ _ _ _ = Ok _ |- _ =>
      replace (2 + (2 + (2 + (2 + (2 + Z.to_nat z * 2)))))%nat with (10 + 2 * Z.to_nat z)%nat
        in Ef by lia;
      set (X := N.to_nat (be_value (take 2 (drop (10 + 2 * Z.to_nat z) src)))) in Ef |- *;
      replace (2 + (2 + (2 + (2 + (2 + (Z.to_nat z * 2 + (2 + X * 1)))))))%nat
        with (10 + 2 * Z.to_nat z + 2 + X)%nat in Ef by lia
  end.
  match goal with
  | Ef : read_flags _ _ _ _ = Ok (?fs, ?s1), Ex : read_coords _ _ _ _ = Ok (?xs, ?s2),
    Ey : read_coords _ _ _ _ = Ok (?ys, _) |- _ =>
      pose proof (read_flags_length _ _ _ _ _ _ Ef) as Hf;
      pose proof (read_coords_length _ _ _ _ _ _ Ex) as Hx;
      pose proof (read_coords_length _ _ _ _ _ _ Ey) as Hy;
      exists e, fs, s1, xs, s2, ys
  end.
  destruct (izip3_proj _ _ _ Hx Hy) as (Hpx & Hpy & Hpc).
  repeat split; try done.
  rewrite <- Hf. rewrite <- (length_map (fun p : Z * Z * bool => fst (fst p))), Hpx. done.
Qed.

End GlyfClaims.

Lemma glyph_points_are_deltas_witness :
  Glyf.read_glyph Glyf.two_point_glyph =
    Err.Ok (Glyf.Simple (Glyf.mkGlyph 1%Z (0%Z, 0%Z) (0%Z, 0%Z) [1%N] [(1%Z, 0%Z, true); (1%Z, 0%Z, true)]), []) /\
  let hdr := (10 + 2 * length [1%N])%nat in
  let s0 := drop (hdr + 2 + N.to_nat (Err.be_value (take 2 (drop hdr Glyf.two_point_glyph))))
              Glyf.two_point_glyph in
  exists e flags_vec s1 xs s2 ys,
    last [1%N] = Some e /\
    Glyf.read_flags (S (length s0)) (N.to_nat e + 1) [] s0 = Err.Ok (flags_vec, s1) /\
    length flags_vec = (N.to_nat e + 1)%nat /\
    Glyf.read_coords Glyf.X_SHORT Glyf.X_SIGN_SKIP flags_vec s1 = Err.Ok (xs, s2) /\
    Glyf.read_coords Glyf.Y_SHORT Glyf.Y_SIGN_SKIP flags_vec s2 = Err.Ok (ys, []) /\
    length [(1%Z, 0%Z, true); (1%Z, 0%Z, true)] = (N.to_nat e + 1)%nat /\
    map (fun p => fst (fst p)) [(1%Z, 0%Z, true); (1%Z, 0%Z, true)] = xs /\
    map (fun p => snd (fst p)) [(1%Z, 0%Z, true); (1%Z, 0%Z, true)] = ys /\
    map snd [(1%Z, 0%Z, true); (1%Z, 0%Z, true)] = map Glyf.on_curve flags_vec.
Proof.
  assert (H : Glyf.read_glyph Glyf.two_point_glyph =
    Err.Ok (Glyf.Simple (Glyf.mkGlyph 1%Z (0%Z, 0%Z) (0%Z, 0%Z) [1%N] [(1%Z, 0%Z, true); (1%Z, 0%Z, true)]), []))
    by reflexivity.
  split; [exact H|].
  exact (glyph_points_are_deltas _ _ _ H).
Defined.

(* ================================================================== *)
(** ** Further properties of the code *)
(* ================================================================== *)

Section SlotmapExtras.
Import Slotmap SlotmapMore.
Context {T : Type}.

(** [push] with a vacant slot at the head of the free list (even version
    [ver]): the value goes into that slot with version [ver + 1], the free
    list moves on to the slot's link, no slot is added, and [get] with the
    returned key gives the value back. *)
Lemma push_vacant_head (s : Slotmap T) (v : T) nf ver :
  num_elems s < 65534 ->
  slots s !! N.to_nat (next_free s) = Some (NextFree nf, ver) ->
  ver mod 2 = 0 -> ver < 65535 ->
  exists s', push s v = Some (s', make_key (next_free s) (ver + 1)) /\
    key_index (make_key (next_free s) (ver + 1)) = next_free s /\
    next_free s' = nf /\ num_elems s' = num_elems s + 1 /\
    length (slots s') = length (slots s) /\
    get s' (make_key (next_free s) (ver + 1)) = Some (Some v).
Proof.
  intros Hn Hs Hev Hv. unfold push.
  replace (num_elems s <? 65535 - 1) with true by (symmetry; apply N.ltb_lt; lia).
  cbn [negb]. rewrite Hs, Hev. cbn.
  eexists. split; [reflexivity|].
  rewrite key_index_make by lia.
  split; [done|]. split; [done|]. split; [done|]. split.
  { cbn. apply length_insert. }
  unfold get, contains. cbn [slots].
  rewrite key_index_make, key_version_make by lia.
  pose proof (lookup_lt_Some _ _ _ Hs) as Hlt.
  rewrite length_insert.
  replace (N.of_nat (length (slots s)) <? next_free s) with false
    by (symmetry; apply N.ltb_ge; lia).
  rewrite list_lookup_insert_eq by lia. by rewrite N.eqb_refl.
Qed.

(** [push] with an occupied slot at the head of the free list (odd version):
    a new slot [(value, 1)] is appended, but the returned key carries the
    index [num_elems] and [next_free] becomes [num_elems]; [get] with that
    key finds the value when [num_elems] equals the number of slots. *)
Lemma push_occupied_head (s : Slotmap T) (v : T) c ver :
  num_elems s < 65534 ->
  slots s !! N.to_nat (next_free s) = Some (c, ver) ->
  ver mod 2 = 1 ->
  exists s', push s v = Some (s', make_key (num_elems s) 1) /\
    slots s' = slots s ++ [(Value v, 1)] /\
    next_free s' = num_elems s /\ num_elems s' = num_elems s + 1 /\
    (N.to_nat (num_elems s) = length (slots s) ->
     get s' (make_key (num_elems s) 1) = Some (Some v)).
Proof.
  intros Hn Hs Hodd. unfold push.
  replace (num_elems s <? 65535 - 1) with true by (symmetry; apply N.ltb_lt; lia).
  cbn [negb]. rewrite Hs, Hodd. cbn.
  eexists. split; [reflexivity|].
  split; [done|]. split; [done|]. split; [done|].
  intros Hlen. unfold get, contains. cbn [slots].
  rewrite key_index_make, key_version_make by lia.
  rewrite length_app. cbn [length].
  replace (N.of_nat (length (slots s) + 1) <? num_elems s) with false
    by (symmetry; apply N.ltb_ge; lia).
  rewrite lookup_app_r by lia. rewrite Hlen, Nat.sub_diag. cbn.
  done.
Qed.

(** [contains] accepts the key of a vacant slot: a key [index << 16 | ver]
    whose slot is free with version [ver] passes the check, and [get] with
    it then reads the [next_free] field of the union. *)
Lemma contains_vacant (s : Slotmap T) i n ver :
  slots s !! i = Some (NextFree n, ver) -> ver < 65536 ->
  contains s (make_key (N.of_nat i) ver) = Some true /\
  get s (make_key (N.of_nat i) ver) = None.
Proof.
  intros Hs Hv. pose proof (lookup_lt_Some _ _ _ Hs) as Hlt.
  assert (Hc : contains s (make_key (N.of_nat i) ver) = Some true).
  { unfold contains. rewrite key_index_make, key_version_make by done.
    replace (N.of_nat (length (slots s)) <? N.of_nat i) with false
      by (symmetry; apply N.ltb_ge; lia).
    rewrite Nat2N.id, Hs. by rewrite N.eqb_refl. }
  split; [done|]. unfold get. rewrite Hc.
  rewrite key_index_make, Nat2N.id, Hs by done. done.
Qed.

(** Every pair that [kv_iter] yields is found again by [get]: [get s k]
    returns the value paired with [k], when the arena has at most 65536
    slots with 16-bit versions. *)
Lemma kv_iter_get (s : Slotmap T) r k x :
  N.of_nat (length (slots s)) <= 65536 ->
  Forall (fun p => p.2 < 65536) (slots s) ->
  kv_iter s = Some r -> In (k, x) r ->
  get s k = Some (Some x).
Proof.
  intros Hlen Hver Hkv Hin.
  destruct (kv_from_in _ _ _ _ _ Hkv Hin) as (j & w & Hj & Hlt & ->).
  cbn in Hlt |- *. pose proof (lookup_lt_Some _ _ _ Hj) as Hjl.
  pose proof (proj1 (Forall_lookup _ _) Hver _ _ Hj) as Hw. cbn in Hw.
  assert (Hm : N.land (N.shiftl (N.of_nat j) 16) (N.ones 32) = N.shiftl (N.of_nat j) 16).
  { rewrite N.land_ones, N.shiftl_mul_pow2. apply N.mod_small.
    change (2 ^ 16) with 65536. change (2 ^ 32) with 4294967296. lia. }
  rewrite Hm. fold (make_key (N.of_nat j) w).
  unfold get, contains. rewrite key_index_make, key_version_make by done.
  replace (N.of_nat (length (slots s)) <? N.of_nat j) with false
    by (symmetry; apply N.ltb_ge; lia).
  rewrite Nat2N.id, Hj. by rewrite N.eqb_refl.
Qed.

(** [SecondaryMap]: after [insert m key value], [get] with the same key
    returns the value when the key's version is odd, and nothing when it is
    even (the stored version is [version | 1]). *)
Lemma sm_get_insert (m : SecondaryMap T) key value :
  sm_get (sm_insert m key value) key =
    Some (if N.odd (key_version key) then Some value else None).
Proof.
  set (i := N.to_nat (key_index key)).
  assert (Hl : (i < length (resize_with (Nat.max (N.to_nat (sm_num_elems m)) (i + 1)) None (items m)))%nat).
  { unfold resize_with. rewrite length_app, length_take, length_replicate. lia. }
  assert (Hlk : items (sm_insert m key value) !! i = Some (Some (value, N.lor (key_version key) 1))).
  { unfold sm_insert. cbn. fold i. by rewrite list_lookup_insert_eq by lia. }
  unfold sm_get, sm_contains. fold i. rewrite Hlk.
  rewrite lor_1. pose proof (N.div2_odd (key_version key)) as Hd.
  destruct (N.odd (key_version key)); cbn in Hd.
  - rewrite <- Hd, N.eqb_refl. done.
  - replace (2 * N.div2 (key_version key) + 1 =? key_version key) with false
      by (symmetry; apply N.eqb_neq; lia). done.
Qed.

(** [SecondaryMap::insert] resizes [items] to [max(num_elems, index + 1)],
    and [num_elems] stays 0: in a map built by inserts, inserting a key drops
    every entry at a larger index. *)
Lemma sm_insert_truncates (l : list (Key * T)) key value key' :
  key_index key < key_index key' ->
  sm_get (sm_insert (sm_inserts l) key value) key' = Some None.
Proof.
  intros Hlt. unfold sm_get, sm_contains, sm_insert. cbn.
  rewrite sm_inserts_num. cbn [N.to_nat Nat.max].
  rewrite list_lookup_insert_ne by lia.
  rewrite lookup_ge_None_2; [done|].
  unfold resize_with. rewrite length_app, length_take, length_replicate. lia.
Qed.

(** [SecondaryMap::insert] leaves the entries at smaller indices as they
    were: [get] with a key of a smaller index answers as before. *)
Lemma sm_insert_keeps_lower (m : SecondaryMap T) key value key' :
  key_index key' < key_index key ->
  sm_get (sm_insert m key value) key' = sm_get m key'.
Proof.
  intros Hlt.
  assert (Hk : items (sm_insert m key value) !! N.to_nat (key_index key') =
               items m !! N.to_nat (key_index key')
               ∨ (items (sm_insert m key value) !! N.to_nat (key_index key') = Some None
                  /\ items m !! N.to_nat (key_index key') = None)).
  { unfold sm_insert. cbn. rewrite list_lookup_insert_ne by lia.
    unfold resize_with.
    destruct (decide (N.to_nat (key_index key') < length (items m))%nat) as [Hin|Hout].
    - left. rewrite lookup_app_l by (rewrite length_take; lia).
      rewrite lookup_take by lia. by rewrite decide_True by lia.
    - right. split; [|apply lookup_ge_None_2; lia].
      rewrite lookup_app_r by (rewrite length_take; lia).
      rewrite lookup_replicate. split; [done|]. rewrite length_take. lia. }
  unfold sm_get, sm_contains. destruct Hk as [Hk|[Hk Hm]].
  - by rewrite Hk.
  - by rewrite Hk, Hm.
Qed.

End SlotmapExtras.

Lemma push_vacant_head_witness :
  (Slotmap.num_elems (@Slotmap.new N) < 65534 /\
   Slotmap.slots (@Slotmap.new N) !! N.to_nat (Slotmap.next_free (@Slotmap.new N)) = Some (Slotmap.NextFree 0, 0) /\
   0 mod 2 = 0 /\ 0 < 65535) /\
  exists s', Slotmap.push Slotmap.new 7 = Some (s', SlotmapMore.make_key (Slotmap.next_free (@Slotmap.new N)) (0 + 1)) /\
    Slotmap.key_index (SlotmapMore.make_key (Slotmap.next_free (@Slotmap.new N)) (0 + 1)) = Slotmap.next_free (@Slotmap.new N) /\
    Slotmap.next_free s' = 0 /\ Slotmap.num_elems s' = Slotmap.num_elems (@Slotmap.new N) + 1 /\
    length (Slotmap.slots s') = length (Slotmap.slots (@Slotmap.new N)) /\
    Slotmap.get s' (SlotmapMore.make_key (Slotmap.next_free (@Slotmap.new N)) (0 + 1)) = Some (Some 7).
Proof.
  split; [cbn; repeat split; lia|].
  apply (push_vacant_head Slotmap.new 7 0 0); cbn; first [lia | reflexivity].
Defined.

Lemma push_occupied_head_witness :
  (Slotmap.num_elems (Slotmap.mkSlotmap [(Slotmap.Value 5, 1)] 0 1) < 65534 /\
   Slotmap.slots (Slotmap.mkSlotmap [(Slotmap.Value 5, 1)] 0 1) !!
     N.to_nat (Slotmap.next_free (Slotmap.mkSlotmap [(Slotmap.Value 5, 1)] 0 1)) = Some (Slotmap.Value 5, 1) /\
   1 mod 2 = 1) /\
  exists s', Slotmap.push (Slotmap.mkSlotmap [(Slotmap.Value 5, 1)] 0 1) 7 = Some (s', SlotmapMore.make_key 1 1) /\
    Slotmap.slots s' = [(Slotmap.Value 5, 1); (Slotmap.Value 7, 1)] /\
    Slotmap.next_free s' = 1 /\ Slotmap.num_elems s' = 1 + 1 /\
    (N.to_nat 1 = length [(Slotmap.Value (5 : N), 1)] ->
     Slotmap.get s' (SlotmapMore.make_key 1 1) = Some (Some 7)).
Proof.
  split; [cbn; repeat split; lia|].
  apply (push_occupied_head (Slotmap.mkSlotmap [(Slotmap.Value 5, 1)] 0 1) 7 (Slotmap.Value 5) 1);
    cbn; first [lia | reflexivity].
Defined.

Lemma contains_vacant_witness :
  (Slotmap.slots (Slotmap.mkSlotmap [(Slotmap.Value (5 : N), 1); (Slotmap.NextFree 0, 2)] 1 1) !! 1%nat
     = Some (Slotmap.NextFree 0, 2) /\ 2 < 65536) /\
  Slotmap.contains (Slotmap.mkSlotmap [(Slotmap.Value (5 : N), 1); (Slotmap.NextFree 0, 2)] 1 1)
    (SlotmapMore.make_key (N.of_nat 1) 2) = Some true /\
  Slotmap.get (Slotmap.mkSlotmap [(Slotmap.Value (5 : N), 1); (Slotmap.NextFree 0, 2)] 1 1)
    (SlotmapMore.make_key (N.of_nat 1) 2) = None.
Proof.
  split; [split; [reflexivity | lia]|].
  apply (contains_vacant _ 1 0 2); [reflexivity | lia].
Defined.

Lemma kv_iter_get_witness :
  (N.of_nat (length (Slotmap.slots (Slotmap.mkSlotmap [(Slotmap.Value (5 : N), 1); (Slotmap.NextFree 0, 2); (Slotmap.Value 9, 3)] 1 2))) <= 65536 /\
   Forall (fun p : Slotmap.SlotContent N * N => p.2 < 65536)
     (Slotmap.slots (Slotmap.mkSlotmap [(Slotmap.Value (5 : N), 1); (Slotmap.NextFree 0, 2); (Slotmap.Value 9, 3)] 1 2)) /\
   SlotmapMore.kv_iter (Slotmap.mkSlotmap [(Slotmap.Value (5 : N), 1); (Slotmap.NextFree 0, 2); (Slotmap.Value 9, 3)] 1 2)
     = Some [(1, 5); (131075, 9)] /\
   In (131075, 9) [(1, 5); (131075, 9)]) /\
  Slotmap.get (Slotmap.mkSlotmap [(Slotmap.Value (5 : N), 1); (Slotmap.NextFree 0, 2); (Slotmap.Value 9, 3)] 1 2) 131075
    = Some (Some 9).
Proof.
  assert (H1 : N.of_nat (length (Slotmap.slots (Slotmap.mkSlotmap [(Slotmap.Value (5 : N), 1); (Slotmap.NextFree 0, 2); (Slotmap.Value 9, 3)] 1 2))) <= 65536)
    by (cbn; lia).
  assert (H2 : Forall (fun p : Slotmap.SlotContent N * N => p.2 < 65536)
     (Slotmap.slots (Slotmap.mkSlotmap [(Slotmap.Value (5 : N), 1); (Slotmap.NextFree 0, 2); (Slotmap.Value 9, 3)] 1 2)))
    by (cbn; repeat constructor; cbn; lia).
  assert (H3 : SlotmapMore.kv_iter (Slotmap.mkSlotmap [(Slotmap.Value (5 : N), 1); (Slotmap.NextFree 0, 2); (Slotmap.Value 9, 3)] 1 2)
     = Some [(1, 5); (131075, 9)]) by reflexivity.
  assert (H4 : In ((131075 : N), (9 : N)) [(1, 5); (131075, 9)]) by (right; left; reflexivity).
  split; [tauto|]. exact (kv_iter_get _ _ _ _ H1 H2 H3 H4).
Defined.

Lemma sm_insert_truncates_witness :
  Slotmap.key_index (SlotmapMore.make_key 1 1) < Slotmap.key_index (SlotmapMore.make_key 3 1) /\
  SlotmapMore.sm_get (SlotmapMore.sm_insert (SlotmapMore.sm_inserts [(SlotmapMore.make_key 3 1, 30)])
                        (SlotmapMore.make_key 1 1) 10)
    (SlotmapMore.make_key 3 1) = Some (@None N).
Proof.
  assert (H : Slotmap.key_index (SlotmapMore.make_key 1 1) < Slotmap.key_index (SlotmapMore.make_key 3 1))
    by (vm_compute; reflexivity).
  split; [exact H | exact (sm_insert_truncates _ _ _ _ H)].
Defined.

Lemma sm_insert_keeps_lower_witness :
  Slotmap.key_index (SlotmapMore.make_key 0 1) < Slotmap.key_index (SlotmapMore.make_key 2 1) /\
  SlotmapMore.sm_get (SlotmapMore.sm_insert (SlotmapMore.sm_inserts [(SlotmapMore.make_key 0 1, 10)])
                        (SlotmapMore.make_key 2 1) 20)
    (SlotmapMore.make_key 0 1) =
  SlotmapMore.sm_get (SlotmapMore.sm_inserts [(SlotmapMore.make_key 0 1, (10 : N))]) (SlotmapMore.make_key 0 1).
Proof.
  assert (H : Slotmap.key_index (SlotmapMore.make_key 0 1) < Slotmap.key_index (SlotmapMore.make_key 2 1))
    by (vm_compute; reflexivity).
  split; [exact H | exact (sm_insert_keeps_lower _ _ _ _ H)].
Defined.

Section ReaderExtras.
Import Err Io Core.

Lemma skip_loop_slice k : forall total src,
  skip_loop slice_read k total src = (drop k src, (total + Nat.min k (length src))%nat).
Proof.
  induction k as [|k IH]; intros total src; [cbn; f_equal; lia|].
  destruct src as [|b src]; cbn; rewrite ?take_0, ?drop_0; cbn.
  - f_equal; lia.
  - rewrite IH. f_equal. lia.
Qed.

(** [CoreRead::skip] on a slice reader skips [min(n, remaining)] bytes and
    returns that count: it stops early at the end of the slice and never
    fails. *)
Lemma skip_slice n src :
  skip slice_read n src = (drop n src, Nat.min n (length src)).
Proof. unfold skip. by rewrite skip_loop_slice. Qed.

(** [read_int] of a [size]-byte integer on a slice reader: the big-endian
    value of the next [size] bytes, or, when fewer are left,
    [UnexpectedEnd] with the number of missing bytes, and the slice is then
    used up. *)
Lemma read_int_slice size src :
  run slice_read (read_int size) src =
  if Nat.leb size (length src) then (Ok (be_value (take size src)), drop size src)
  else (Error (UnexpectedEnd (size - length src)), []).
Proof.
  cbn. rewrite length_take.
  destruct (Nat.leb size (length src)) eqn:E.
  - apply Nat.leb_le in E. replace (Nat.min size (length src)) with size by lia.
    by rewrite Nat.eqb_refl.
  - apply Nat.leb_gt in E. replace (Nat.min size (length src)) with (length src) by lia.
    replace (Nat.eqb (length src) size) with false by (symmetry; apply Nat.eqb_neq; lia).
    rewrite drop_ge by lia. done.
Qed.

(** Wrapping a slice reader in a [ChecksumReader] changes nothing for the
    code reading through it: any reader-generic function returns the same
    result and leaves the same rest of the slice, and the checksum reader
    ends in the state of feeding it exactly the consumed bytes one at a time,
    however the reads split them. *)
Lemma checksum_layer_transparent {A} (p : Prog A) : forall r src,
  fst (run (layer_read slice_read) p (r, src)) = fst (run slice_read p src) /\
  exists used, src = used ++ snd (run slice_read p src) /\
    snd (run (layer_read slice_read) p (r, src)) =
      (fold_left ck_step used r, snd (run slice_read p src)).
Proof.
  induction p as [res|n k IH]; intros r src.
  - split; [done|]. exists []. done.
  - cbn -[cr_absorb]. destruct (IH (take n src) (cr_absorb r (take n src)) (drop n src))
      as [Hres (used & Hsrc & Hst)].
    split; [done|]. exists (take n src ++ used). split.
    + by rewrite <- app_assoc, <- Hsrc, take_drop.
    + by rewrite Hst, fold_left_app, cr_absorb_fold.
Qed.

Lemma skip_loop_layer k : forall total r src,
  skip_loop (layer_read slice_read) k total (r, src) =
  ((fold_left ck_step (take k src) r, drop k src), (total + Nat.min k (length src))%nat).
Proof.
  induction k as [|k IH]; intros total r src; [cbn; f_equal; lia|].
  destruct src as [|b src]; cbn -[cr_absorb]; rewrite ?take_0, ?drop_0; cbn -[cr_absorb].
  - rewrite cr_absorb_fold. f_equal; lia.
  - rewrite IH, cr_absorb_fold. f_equal. lia.
Qed.

(** [skip] through a [ChecksumReader] over a slice feeds the skipped bytes
    into the checksum like a [read] of them would: the skipped bytes still
    count towards the whole-file checksum. *)
Lemma skip_checksum_layer n r src :
  skip (layer_read slice_read) n (r, src) =
  ((fold_left ck_step (take n src) r, drop n src), Nat.min n (length src)).
Proof. unfold skip. by rewrite skip_loop_layer. Qed.

End ReaderExtras.

Section TableExtras.
Import Err Core.
Local Open Scope string_scope.
Local Open Scope N_scope.

(** [maxp::parse_table] reports no [UnexpectedEop]: a table shorter than 4
    bytes panics, a known version (0.5 or 1.0) with fewer than 6 bytes
    panics, an unknown version is [InvalidVersion], and otherwise
    [numGlyphs] is the big-endian value of bytes 4..6. *)
Lemma maxp_parse_outcome data :
  Maxp.parse_table data =
  if Nat.ltb (length data) 4 then Panic
  else
    let v := be_value (take 4 data) in
    if (v =? 0x00005000) || (v =? 0x00010000) then
      if Nat.ltb (length data) 6 then Panic
      else Ok ((if v =? 0x00005000 then Maxp.Ver05 else Maxp.Ver10) (be_value (take 2 (drop 4 data))))
    else Error (InvalidVersion "maxp" v).
Proof.
  unfold Maxp.parse_table, Head.be_at, Head.slice. cbn [Nat.sub]. rewrite drop_0.
  destruct (Nat.ltb (length data) 4) eqn:E4; [done|]. cbn -[be_value take drop].
  destruct (be_value (take 4 data) =? 0x00005000), (be_value (take 4 data) =? 0x00010000),
    (length data <=? 5)%nat; reflexivity.
Qed.

(** [head::parse_table] on a table of at least 54 bytes panics only when a
    subscriber enables DEBUG and the [Display] of the created or of the
    modified date panics: every field it reads lies in the first 54 bytes.
    Without such a subscriber it never panics there. *)
Lemma head_parse_no_panic debug from_timestamp_ok data :
  (54 <= length data)%nat -> Head.parse_table_traced debug from_timestamp_ok data = Panic ->
  debug = true /\
  (Head.ldt_display from_timestamp_ok (Head.i64_of (be_value (take 8 (drop 20 data)))) = Panic \/
   Head.ldt_display from_timestamp_ok (Head.i64_of (be_value (take 8 (drop 28 data)))) = Panic).
Proof.
  intros Hl H. unfold Head.parse_table_traced, Head.be_at, Head.slice, Head.debug_event in H.
  repeat match type of H with
  | context [Nat.ltb (length data) ?b] =>
      replace (Nat.ltb (length data) b) with false in H by (symmetry; apply Nat.ltb_ge; lia)
  end.
  cbn -[be_value take drop Head.ldt_display Head.i64_of] in H.
  destruct debug; [|repeat (case_match; cbn -[be_value take drop] in H; try discriminate)].
  split; [done|].
  destruct (Head.ldt_display from_timestamp_ok (Head.i64_of (be_value (take 8 (drop 20 data)))))
    as [[]|e|] eqn:E1;
    [|exfalso; revert E1; unfold Head.ldt_display; repeat case_match; discriminate|by left].
  destruct (Head.ldt_display from_timestamp_ok (Head.i64_of (be_value (take 8 (drop 28 data)))))
    as [[]|e|] eqn:E2;
    [|exfalso; revert E2; unfold Head.ldt_display; repeat case_match; discriminate|by right].
  exfalso.
  repeat (case_match; cbn -[be_value take drop Head.ldt_display Head.i64_of] in H; try discriminate).
Qed.

(** A [head] table that decodes had at least 54 bytes, the magic number
    0x5F0F3CF5 at bytes 12..16, a unitsPerEm in [16, 16384], an
    indexToLocFormat of 0 or 1 (the latter meaning long offsets) and a
    glyphDataFormat of 0. *)
Lemma head_parse_ok data t :
  Head.parse_table data = Ok t ->
  (54 <= length data)%nat /\
  be_value (take 4 (drop 12 data)) = 0x5f0f3cf5 /\
  16 <= Head.units_per_em t <= 16384 /\
  Head.units_per_em t = be_value (take 2 (drop 18 data)) /\
  be_value (take 2 (drop 50 data)) <= 1 /\
  Head.long_offset t = (be_value (take 2 (drop 50 data)) =? 1) /\
  be_value (take 2 (drop 52 data)) = 0.
Proof.
  intros H. unfold Head.parse_table, Head.parse_table_traced, Head.be_at, Head.slice,
    Head.debug_event in H.
  repeat (case_match; cbn -[be_value take drop] in H; try discriminate).
  injection H as <-. cbn [Head.units_per_em Head.long_offset].
  repeat match goal with
  | H : Nat.leb _ _ = false |- _ => apply Nat.leb_gt in H
  | H : negb (_ && _) = false |- _ => apply negb_false_iff, andb_true_iff in H; destruct H
  end.
  HeaderFacts.bool_hyps. repeat split; try lia; done.
Qed.

End TableExtras.

Section LocaExtras.
Import Err Core Tables Loca.
Local Open Scope N_scope.
Context {G L Nm : Type}.
Local Abbreviation Table := (Tables.Table G Maxp.Type_ L Head.Type_ Nm).

Lemma read_u32_be v rest : v < 2 ^ 32 ->
  run slice_read (read_int 4) (u32_be v ++ rest) = (Ok v, rest).
Proof.
  intros Hv. rewrite read_int_slice. pose proof (be_value_u32_be v Hv) as E.
  unfold u32_be in *. cbn -[be_value byte_of N.shiftr]. by rewrite take_0, drop_0, E.
Qed.

Lemma concat_u32_cons v vs rest :
  concat (map u32_be (v :: vs)) ++ rest = u32_be v ++ (concat (map u32_be vs) ++ rest).
Proof. cbn [map concat]. by rewrite app_assoc. Qed.

Lemma nondecreasing_tail a l : nondecreasing (a :: l) -> nondecreasing l.
Proof. intros H i x y Hx Hy. by apply (H (S i)). Qed.

Lemma read_offsets_sorted vals : forall prev rest,
  Forall (fun v => v < 2 ^ 32) vals -> nondecreasing (prev :: vals) ->
  run slice_read (read_offsets true (length vals) prev) (concat (map u32_be vals) ++ rest) =
  (Ok vals, rest).
Proof.
  induction vals as [|v vs IH]; intros prev rest Hb Hs; [done|].
  inversion Hb as [|? ? Hv Hvs]; subst.
  cbn [length read_offsets]. rewrite concat_u32_cons, run_bind, read_u32_be by done.
  replace (v <? prev) with false by (symmetry; apply N.ltb_ge; by apply (Hs 0%nat)).
  rewrite run_bind, IH by (done || by eapply nondecreasing_tail). done.
Qed.

Lemma read_offsets_decrease pre : forall prev a b post rest,
  Forall (fun v => v < 2 ^ 32) (pre ++ [a; b]) -> nondecreasing (prev :: pre ++ [a]) -> b < a ->
  fst (run slice_read (read_offsets true (length (pre ++ a :: b :: post)) prev)
         (concat (map u32_be (pre ++ a :: b :: post)) ++ rest)) =
  if a =? 2 ^ 32 - 1 then Panic else Error (Parsing "loca"%string (a + 1) b).
Proof.
  induction pre as [|p pre IH]; intros prev a b post rest Hb Hs Hlt.
  - inversion Hb as [|? ? Ha Hb']; subst. inversion Hb' as [|? ? Hbb _]; subst.
    cbn [app length read_offsets]. rewrite concat_u32_cons, run_bind, read_u32_be by done.
    replace (a <? prev) with false by (symmetry; apply N.ltb_ge; by apply (Hs 0%nat)).
    rewrite run_bind. cbn [read_offsets]. rewrite concat_u32_cons, run_bind, read_u32_be by done.
    replace (b <? a) with true by (symmetry; by apply N.ltb_lt).
    cbn. destruct (a =? 2 ^ 32 - 1) eqn:E.
    + apply N.eqb_eq in E. rewrite E. done.
    + apply N.eqb_neq in E.
      replace (2 ^ 32 <=? a + 1) with false by (symmetry; apply N.leb_gt; lia). done.
  - inversion Hb as [|? ? Hp Hb']; subst.
    cbn [app length read_offsets]. rewrite concat_u32_cons, run_bind, read_u32_be by done.
    replace (p <? prev) with false by (symmetry; apply N.ltb_ge; by apply (Hs 0%nat)).
    rewrite run_bind.
    specialize (IH p a b post rest Hb' (nondecreasing_tail _ _ Hs) Hlt).
    destruct (run slice_read _ _) as [r s]. cbn in IH |- *. subst r.
    by destruct (a =? 2 ^ 32 - 1).
Qed.

(** A decoded [loca] table has [numGlyphs + 1] offsets that never decrease:
    [len()] is [numGlyphs], and [index(i)] succeeds for every [i < len()]
    with the offset of glyph [i] and its length [offsets[i+1] - offsets[i]]. *)
Lemma loca_parse_ok {St} (rd : St -> nat -> St * list byte) (ts : list Table) s l s' m :
  run rd (Loca.parse_table ts) s = (Ok l, s') -> find_maxp ts = Some m ->
  len l = Ok (N.to_nat (Maxp.num_glyphs m)) /\
  forall i, (i < N.to_nat (Maxp.num_glyphs m))%nat -> exists a b,
    offsets l !! i = Some a /\ offsets l !! S i = Some b /\ a <= b /\
    index l i = Ok (a, b - a).
Proof.
  intros H Hm. unfold Loca.parse_table in H. rewrite Hm in H.
  destruct (find_head ts) as [h|]; [|discriminate].
  rewrite run_bind in H.
  destruct (run rd (read_offsets _ _ 0) s) as [[offs| |] s1] eqn:E; [|discriminate..].
  injection H as <- _.
  destruct (read_offsets_ok rd _ _ _ _ _ _ E) as (Hl & _ & Hs).
  assert (Hlen : len (mkType offs) = Ok (N.to_nat (Maxp.num_glyphs m))).
  { unfold len. cbn [offsets]. rewrite Hl.
    replace (Nat.eqb (N.to_nat (Maxp.num_glyphs m) + 1) 0) with false by (symmetry; apply Nat.eqb_neq; lia).
    f_equal. lia. }
  split; [done|]. intros i Hi.
  destruct (lookup_lt_is_Some_2 offs i) as [a Ha]; [lia|].
  destruct (lookup_lt_is_Some_2 offs (S i)) as [b Hb]; [lia|].
  pose proof (Hs i a b Ha Hb) as Hab.
  exists a, b. split; [done|]. split; [done|]. split; [done|].
  unfold index. rewrite Hlen. cbn [bind].
  replace (Nat.ltb i (N.to_nat (Maxp.num_glyphs m))) with true by (symmetry; by apply Nat.ltb_lt).
  cbn [negb offsets]. rewrite Ha, Hb.
  by replace (b <? a) with false by (symmetry; apply N.ltb_ge; lia).
Qed.

(** Round trip of the long format: with a [head] asking for long offsets
    and a [maxp] of [numGlyphs] glyphs, a slice holding [numGlyphs + 1]
    nondecreasing big-endian [u32] offsets decodes to exactly those offsets
    and leaves the bytes after them unread. *)
Lemma loca_parse_roundtrip (ts : list Table) h m vals rest :
  find_head ts = Some h -> Head.long_offset h = true -> find_maxp ts = Some m ->
  length vals = (N.to_nat (Maxp.num_glyphs m) + 1)%nat ->
  Forall (fun v => v < 2 ^ 32) vals -> nondecreasing vals ->
  run slice_read (Loca.parse_table ts) (concat (map u32_be vals) ++ rest) = (Ok (mkType vals), rest).
Proof.
  intros Hh Hlo Hm Hl Hb Hs. unfold Loca.parse_table. rewrite Hh, Hm, Hlo, <- Hl.
  rewrite run_bind, read_offsets_sorted; [done|done|].
  intros [|i] x y Hx Hy; cbn in Hx, Hy.
  - injection Hx as <-. lia.
  - by apply (Hs i).
Qed.

(** In the long format, the first offset smaller than the one before it
    stops the decoding with [Parsing "loca"%string] (expected: the previous offset
    plus one), except after an offset of [u32::MAX], where computing that
    expected value overflows and panics. *)
Lemma loca_parse_decrease (ts : list Table) h m pre a b post rest :
  find_head ts = Some h -> Head.long_offset h = true -> find_maxp ts = Some m ->
  length (pre ++ a :: b :: post) = (N.to_nat (Maxp.num_glyphs m) + 1)%nat ->
  Forall (fun v => v < 2 ^ 32) (pre ++ [a; b]) -> nondecreasing (pre ++ [a]) -> b < a ->
  fst (run slice_read (Loca.parse_table ts) (concat (map u32_be (pre ++ a :: b :: post)) ++ rest)) =
  if a =? 2 ^ 32 - 1 then Panic else Error (Parsing "loca"%string (a + 1) b).
Proof.
  intros Hh Hlo Hm Hl Hb Hs Hlt. unfold Loca.parse_table. rewrite Hh, Hm, Hlo, <- Hl.
  rewrite run_bind.
  pose proof (read_offsets_decrease pre 0 a b post rest Hb) as Hd.
  destruct (run slice_read (read_offsets true _ 0) _) as [r s].
  cbn in Hd |- *. rewrite Hd; [by destruct (a =? 2 ^ 32 - 1)| |done].
  intros [|i] x y Hx Hy; cbn in Hx, Hy.
  - injection Hx as <-. lia.
  - by apply (Hs i).
Qed.

End LocaExtras.

Lemma head_parse_no_panic_witness :
  ((54 <= length (Head.sample [x00; x01] [x00; x00]))%nat /\
   Head.parse_table_traced true (fun _ => false) (Head.sample [x00; x01] [x00; x00]) = Err.Panic) /\
  true = true /\
  (Head.ldt_display (fun _ => false)
     (Head.i64_of (Err.be_value (take 8 (drop 20 (Head.sample [x00; x01] [x00; x00]))))) = Err.Panic \/
   Head.ldt_display (fun _ => false)
     (Head.i64_of (Err.be_value (take 8 (drop 28 (Head.sample [x00; x01] [x00; x00]))))) = Err.Panic).
Proof.
  assert (H : (54 <= length (Head.sample [x00; x01] [x00; x00]))%nat) by (cbn; lia).
  assert (Hp : Head.parse_table_traced true (fun _ => false) (Head.sample [x00; x01] [x00; x00])
               = Err.Panic) by reflexivity.
  split; [split; [exact H | exact Hp]|].
  exact (head_parse_no_panic _ _ _ H Hp).
Defined.

Lemma head_parse_ok_witness :
  Head.parse_table (Head.sample [x00; x01] [x00; x00]) = Err.Ok (Head.mkType 1000 0 0 false) /\
  (54 <= length (Head.sample [x00; x01] [x00; x00]))%nat /\
  Err.be_value (take 4 (drop 12 (Head.sample [x00; x01] [x00; x00]))) = 0x5f0f3cf5 /\
  16 <= Head.units_per_em (Head.mkType 1000 0 0 false) <= 16384 /\
  Head.units_per_em (Head.mkType 1000 0 0 false) = Err.be_value (take 2 (drop 18 (Head.sample [x00; x01] [x00; x00]))) /\
  Err.be_value (take 2 (drop 50 (Head.sample [x00; x01] [x00; x00]))) <= 1 /\
  Head.long_offset (Head.mkType 1000 0 0 false) = (Err.be_value (take 2 (drop 50 (Head.sample [x00; x01] [x00; x00]))) =? 1) /\
  Err.be_value (take 2 (drop 52 (Head.sample [x00; x01] [x00; x00]))) = 0.
Proof.
  assert (H : Head.parse_table (Head.sample [x00; x01] [x00; x00]) = Err.Ok (Head.mkType 1000 0 0 false))
    by reflexivity.
  split; [exact H | exact (head_parse_ok _ _ H)].
Defined.

Lemma loca_parse_ok_witness :
  Core.run Core.slice_read
    (Loca.parse_table [@Tables.THead unit Maxp.Type_ unit Head.Type_ unit (Head.mkType 1000 0 0 true);
                       Tables.TMaxp (Maxp.Ver10 2)])
    (concat (map Loca.u32_be [0; 10; 10])) = (Err.Ok (Loca.mkType [0; 10; 10]), []) /\
  Loca.find_maxp [@Tables.THead unit Maxp.Type_ unit Head.Type_ unit (Head.mkType 1000 0 0 true);
                  Tables.TMaxp (Maxp.Ver10 2)] = Some (Maxp.Ver10 2) /\
  Loca.len (Loca.mkType [0; 10; 10]) = Err.Ok (N.to_nat (Maxp.num_glyphs (Maxp.Ver10 2))) /\
  forall i, (i < N.to_nat (Maxp.num_glyphs (Maxp.Ver10 2)))%nat -> exists a b,
    Loca.offsets (Loca.mkType [0; 10; 10]) !! i = Some a /\
    Loca.offsets (Loca.mkType [0; 10; 10]) !! S i = Some b /\ a <= b /\
    Loca.index (Loca.mkType [0; 10; 10]) i = Err.Ok (a, b - a).
Proof.
  assert (H1 : Core.run Core.slice_read
    (Loca.parse_table [@Tables.THead unit Maxp.Type_ unit Head.Type_ unit (Head.mkType 1000 0 0 true);
                       Tables.TMaxp (Maxp.Ver10 2)])
    (concat (map Loca.u32_be [0; 10; 10])) = (Err.Ok (Loca.mkType [0; 10; 10]), [])) by reflexivity.
  assert (H2 : Loca.find_maxp [@Tables.THead unit Maxp.Type_ unit Head.Type_ unit (Head.mkType 1000 0 0 true);
                  Tables.TMaxp (Maxp.Ver10 2)] = Some (Maxp.Ver10 2)) by reflexivity.
  split; [exact H1|]. split; [exact H2|]. exact (loca_parse_ok _ _ _ _ _ _ H1 H2).
Defined.

Lemma loca_parse_roundtrip_witness :
  (Loca.find_head [@Tables.THead unit Maxp.Type_ unit Head.Type_ unit (Head.mkType 1000 0 0 true);
                   Tables.TMaxp (Maxp.Ver10 2)] = Some (Head.mkType 1000 0 0 true) /\
   Head.long_offset (Head.mkType 1000 0 0 true) = true /\
   Loca.find_maxp [@Tables.THead unit Maxp.Type_ unit Head.Type_ unit (Head.mkType 1000 0 0 true);
                   Tables.TMaxp (Maxp.Ver10 2)] = Some (Maxp.Ver10 2) /\
   length [0; 10; 10] = (N.to_nat (Maxp.num_glyphs (Maxp.Ver10 2)) + 1)%nat /\
   Forall (fun v => v < 2 ^ 32) [0; 10; 10] /\ Loca.nondecreasing [0; 10; 10]) /\
  Core.run Core.slice_read
    (Loca.parse_table [@Tables.THead unit Maxp.Type_ unit Head.Type_ unit (Head.mkType 1000 0 0 true);
                       Tables.TMaxp (Maxp.Ver10 2)])
    (concat (map Loca.u32_be [0; 10; 10]) ++ [x01]) = (Err.Ok (Loca.mkType [0; 10; 10]), [x01]).
Proof.
  assert (Hs : Loca.nondecreasing [0; 10; 10]).
  { intros [|[|[|i]]] a b Ha Hb; cbn in Ha, Hb; try discriminate;
      injection Ha as <-; injection Hb as <-; lia. }
  assert (Hb : Forall (fun v => v < 2 ^ 32) [0; 10; 10]) by (repeat constructor; cbn; lia).
  split; [repeat split; [exact Hb | exact Hs]|].
  exact (loca_parse_roundtrip [@Tables.THead unit Maxp.Type_ unit Head.Type_ unit (Head.mkType 1000 0 0 true); Tables.TMaxp (Maxp.Ver10 2)]
           (Head.mkType 1000 0 0 true) (Maxp.Ver10 2) [0; 10; 10] [x01]
           eq_refl eq_refl eq_refl eq_refl Hb Hs).
Defined.

Lemma loca_parse_decrease_witness :
  (Loca.find_head [@Tables.THead unit Maxp.Type_ unit Head.Type_ unit (Head.mkType 1000 0 0 true);
                   Tables.TMaxp (Maxp.Ver10 2)] = Some (Head.mkType 1000 0 0 true) /\
   Head.long_offset (Head.mkType 1000 0 0 true) = true /\
   Loca.find_maxp [@Tables.THead unit Maxp.Type_ unit Head.Type_ unit (Head.mkType 1000 0 0 true);
                   Tables.TMaxp (Maxp.Ver10 2)] = Some (Maxp.Ver10 2) /\
   length ([0] ++ 10 :: 4 :: []) = (N.to_nat (Maxp.num_glyphs (Maxp.Ver10 2)) + 1)%nat /\
   Forall (fun v => v < 2 ^ 32) ([0] ++ [10; 4]) /\ Loca.nondecreasing ([0] ++ [10]) /\ 4 < 10) /\
  fst (Core.run Core.slice_read
    (Loca.parse_table [@Tables.THead unit Maxp.Type_ unit Head.Type_ unit (Head.mkType 1000 0 0 true);
                       Tables.TMaxp (Maxp.Ver10 2)])
    (concat (map Loca.u32_be ([0] ++ 10 :: 4 :: [])) ++ [])) = Err.Error (Err.Parsing "loca" 11 4).
Proof.
  assert (Hs : Loca.nondecreasing ([0] ++ [10])).
  { intros [|[|i]] a b Ha Hb; cbn in Ha, Hb; try discriminate;
      injection Ha as <-; injection Hb as <-; lia. }
  assert (Hb : Forall (fun v => v < 2 ^ 32) ([0] ++ [10; 4])) by (repeat constructor; cbn; lia).
  split; [repeat split; first [exact Hb | exact Hs | lia]|].
  rewrite (loca_parse_decrease [@Tables.THead unit Maxp.Type_ unit Head.Type_ unit (Head.mkType 1000 0 0 true); Tables.TMaxp (Maxp.Ver10 2)]
             (Head.mkType 1000 0 0 true) (Maxp.Ver10 2) [0] 10 4 [] []
             eq_refl eq_refl eq_refl eq_refl Hb Hs ltac:(lia)).
  reflexivity.
Defined.

Section GlyfExtras.
Import Err Core Glyf GlyfTable.
Context {M H Nm : Type}.
Local Abbreviation Table := (Tables.Table (list Glyph) M Loca.Type_ H Nm).

Lemma loca_index_in_range l i p :
  Loca.index l i = Ok p -> exists n, Loca.len l = Ok n /\ (i < n)%nat.
Proof.
  unfold Loca.index. intros Hi.
  destruct (Loca.len l) as [n|e|] eqn:En; unfold bind in Hi; try discriminate.
  destruct (Nat.ltb i n) eqn:E; cbn [negb] in Hi; [|discriminate].
  exists n. split; [done|]. by apply Nat.ltb_lt.
Qed.

(** A decoded [glyf] table has one glyph per [loca] entry ([len()] of
    them), and every entry of length 0 gives the empty glyph (no contours,
    bounds 0..=0, no points). *)
Lemma glyf_parse_ok (ts : list Table) src gs l :
  GlyfTable.parse_table ts src = Ok gs -> find_loca ts = Some l ->
  Loca.len l = Ok (length gs) /\
  forall i o, Loca.index l i = Ok (o, 0) -> gs !! i = Some empty_glyph.
Proof.
  intros Hp Hl. unfold GlyfTable.parse_table in Hp. rewrite Hl in Hp.
  destruct (Loca.len l) as [n| |] eqn:En; cbn [bind] in Hp; try discriminate.
  destruct (glyf_loop_ok _ _ _ _ _ _ Hp) as (new & -> & Hlen & Hnew).
  rewrite length_seq in Hlen. split; [cbn; by rewrite Hlen|].
  intros i o Hi. destruct (loca_index_in_range _ _ _ Hi) as (n' & En' & Hlt).
  rewrite En in En'. injection En' as <-.
  apply (Hnew i i o); [apply lookup_seq; lia|done].
Qed.

(** A composite glyph (negative [numberOfContours]) as the first entry of
    the table makes the parser panic: it clones [glyphs[0]], which does not
    exist yet. *)
Lemma glyf_parse_composite_first (ts : list Table) src l o len src' :
  find_loca ts = Some l -> Loca.index l 0 = Ok (o, len) -> len <> 0 ->
  (N.to_nat o <= length src)%nat ->
  read_glyph (drop (N.to_nat o) src) = Ok (Composite, src') ->
  GlyfTable.parse_table ts src = Panic.
Proof.
  intros Hl Hi Hlen Ho Hg. unfold GlyfTable.parse_table. rewrite Hl.
  destruct (loca_index_in_range _ _ _ Hi) as (n & En & Hn). rewrite En. cbn [bind].
  destruct n as [|n]; [lia|]. cbn [seq glyf_loop]. rewrite Hi. cbn [bind].
  replace (len =? 0) with false by (symmetry; by apply N.eqb_neq).
  replace (Nat.ltb (N.to_nat o) 0) with false by (symmetry; apply Nat.ltb_ge; lia).
  rewrite Nat.sub_0_r, skip_slice.
  replace (Nat.min (N.to_nat o) (length src)) with (N.to_nat o) by lia.
  rewrite Nat.eqb_refl. cbn [negb]. rewrite Hg. done.
Qed.

(** When the first glyph is decoded from more bytes than the offset of the
    second (nonempty) entry, the parser panics: the skip to the second
    glyph computes [offset - total_read()], which underflows. *)
Lemma glyf_parse_overrun (ts : list Table) src l len0 o1 len1 g src1 :
  find_loca ts = Some l -> Loca.index l 0 = Ok (0, len0) -> len0 <> 0 ->
  Loca.index l 1 = Ok (o1, len1) -> len1 <> 0 ->
  read_glyph src = Ok (Simple g, src1) ->
  (N.to_nat o1 < length src - length src1)%nat ->
  GlyfTable.parse_table ts src = Panic.
Proof.
  intros Hl Hi0 Hlen0 Hi1 Hlen1 Hg Ho. unfold GlyfTable.parse_table. rewrite Hl.
  destruct (loca_index_in_range _ _ _ Hi1) as (n & En & Hn). rewrite En. cbn [bind].
  destruct n as [|[|n]]; [lia|lia|]. cbn [seq glyf_loop]. rewrite Hi0. cbn [bind].
  replace (len0 =? 0) with false by (symmetry; by apply N.eqb_neq).
  change (N.to_nat 0) with 0%nat. rewrite skip_slice.
  cbn [drop Nat.min Nat.ltb Nat.leb Nat.sub Nat.add Nat.eqb negb].
  rewrite drop_0, Hg, Hi1. cbn [bind].
  replace (len1 =? 0) with false by (symmetry; by apply N.eqb_neq).
  destruct (length src - length src1)%nat as [|k] eqn:E; [lia|].
  replace (N.to_nat o1 <=? k)%nat with true by (symmetry; apply Nat.leb_le; lia).
  done.
Qed.

End GlyfExtras.

Lemma glyf_parse_ok_witness :
  GlyfTable.parse_table [@Tables.TLoca (list Glyf.Glyph) unit Loca.Type_ unit unit (Loca.mkType [0; 0; 18])]
    Glyf.two_point_glyph =
    Err.Ok [GlyfTable.empty_glyph;
            Glyf.mkGlyph 1 (0, 0)%Z (0, 0)%Z [1] [(1, 0, true); (1, 0, true)]%Z] /\
  GlyfTable.find_loca [@Tables.TLoca (list Glyf.Glyph) unit Loca.Type_ unit unit (Loca.mkType [0; 0; 18])]
    = Some (Loca.mkType [0; 0; 18]) /\
  Loca.len (Loca.mkType [0; 0; 18]) = Err.Ok (length [GlyfTable.empty_glyph;
            Glyf.mkGlyph 1 (0, 0)%Z (0, 0)%Z [1] [(1, 0, true); (1, 0, true)]%Z]) /\
  forall i o, Loca.index (Loca.mkType [0; 0; 18]) i = Err.Ok (o, 0) ->
    [GlyfTable.empty_glyph; Glyf.mkGlyph 1 (0, 0)%Z (0, 0)%Z [1] [(1, 0, true); (1, 0, true)]%Z] !! i
      = Some GlyfTable.empty_glyph.
Proof.
  assert (H1 : GlyfTable.parse_table [@Tables.TLoca (list Glyf.Glyph) unit Loca.Type_ unit unit (Loca.mkType [0; 0; 18])]
    Glyf.two_point_glyph =
    Err.Ok [GlyfTable.empty_glyph;
            Glyf.mkGlyph 1 (0, 0)%Z (0, 0)%Z [1] [(1, 0, true); (1, 0, true)]%Z]) by reflexivity.
  assert (H2 : GlyfTable.find_loca [@Tables.TLoca (list Glyf.Glyph) unit Loca.Type_ unit unit (Loca.mkType [0; 0; 18])]
    = Some (Loca.mkType [0; 0; 18])) by reflexivity.
  split; [exact H1|]. split; [exact H2|]. exact (glyf_parse_ok _ _ _ _ H1 H2).
Defined.

Lemma glyf_parse_composite_first_witness :
  (GlyfTable.find_loca [@Tables.TLoca (list Glyf.Glyph) unit Loca.Type_ unit unit (Loca.mkType [0; 10])]
     = Some (Loca.mkType [0; 10]) /\
   Loca.index (Loca.mkType [0; 10]) 0 = Err.Ok (0, 10) /\ 10 <> 0 /\
   (N.to_nat 0 <= length ([xff; xff] ++ repeat x00 8))%nat /\
   Glyf.read_glyph (drop (N.to_nat 0) ([xff; xff] ++ repeat x00 8)) = Err.Ok (Glyf.Composite, [])) /\
  GlyfTable.parse_table [@Tables.TLoca (list Glyf.Glyph) unit Loca.Type_ unit unit (Loca.mkType [0; 10])]
    ([xff; xff] ++ repeat x00 8) = Err.Panic.
Proof.
  assert (H1 : GlyfTable.find_loca [@Tables.TLoca (list Glyf.Glyph) unit Loca.Type_ unit unit (Loca.mkType [0; 10])]
     = Some (Loca.mkType [0; 10])) by reflexivity.
  assert (H2 : Loca.index (Loca.mkType [0; 10]) 0 = Err.Ok (0, 10)) by reflexivity.
  assert (H3 : (10 : N) <> 0) by lia.
  assert (H4 : (N.to_nat 0 <= length ([xff; xff] ++ repeat x00 8))%nat) by (cbn; lia).
  assert (H5 : Glyf.read_glyph (drop (N.to_nat 0) ([xff; xff] ++ repeat x00 8)) = Err.Ok (Glyf.Composite, []))
    by reflexivity.
  split; [tauto|]. exact (glyf_parse_composite_first _ _ _ _ _ _ H1 H2 H3 H4 H5).
Defined.

Lemma glyf_parse_overrun_witness :
  (GlyfTable.find_loca [@Tables.TLoca (list Glyf.Glyph) unit Loca.Type_ unit unit (Loca.mkType [0; 10; 28])]
     = Some (Loca.mkType [0; 10; 28]) /\
   Loca.index (Loca.mkType [0; 10; 28]) 0 = Err.Ok (0, 10) /\ 10 <> 0 /\
   Loca.index (Loca.mkType [0; 10; 28]) 1 = Err.Ok (10, 18) /\ 18 <> 0 /\
   Glyf.read_glyph (Glyf.two_point_glyph ++ [x00]) =
     Err.Ok (Glyf.Simple (Glyf.mkGlyph 1 (0, 0)%Z (0, 0)%Z [1] [(1, 0, true); (1, 0, true)]%Z), [x00]) /\
   (N.to_nat 10 < length (Glyf.two_point_glyph ++ [x00]) - length [x00])%nat) /\
  GlyfTable.parse_table [@Tables.TLoca (list Glyf.Glyph) unit Loca.Type_ unit unit (Loca.mkType [0; 10; 28])]
    (Glyf.two_point_glyph ++ [x00]) = Err.Panic.
Proof.
  assert (H1 : GlyfTable.find_loca [@Tables.TLoca (list Glyf.Glyph) unit Loca.Type_ unit unit (Loca.mkType [0; 10; 28])]
     = Some (Loca.mkType [0; 10; 28])) by reflexivity.
  assert (H2 : Loca.index (Loca.mkType [0; 10; 28]) 0 = Err.Ok (0, 10)) by reflexivity.
  assert (H3 : (10 : N) <> 0) by lia.
  assert (H4 : Loca.index (Loca.mkType [0; 10; 28]) 1 = Err.Ok (10, 18)) by reflexivity.
  assert (H5 : (18 : N) <> 0) by lia.
  assert (H6 : Glyf.read_glyph (Glyf.two_point_glyph ++ [x00]) =
     Err.Ok (Glyf.Simple (Glyf.mkGlyph 1 (0, 0)%Z (0, 0)%Z [1] [(1, 0, true); (1, 0, true)]%Z), [x00]))
    by reflexivity.
  assert (H7 : (N.to_nat 10 < length (Glyf.two_point_glyph ++ [x00]) - length [x00])%nat) by (cbn; lia).
  split; [tauto|]. exact (glyf_parse_overrun _ _ _ _ _ _ _ _ H1 H2 H3 H4 H5 H6 H7).
Defined.

Section NameExtras.
Import Err Core NameTable.
Local Open Scope N_scope.

Lemma read_header_length src so infos sal src1 :
  read_header src = Ok ((so, infos, sal), src1) -> be_value (take 2 src) <> 1 ->
  length src = (length src1 + 6 + 12 * length infos)%nat.
Proof.
  intros H Hv. unfold read_header, rbind at 1, bind at 1 in H.
  destruct (read_u16 src) as [[ver s1]| |] eqn:E1; [|discriminate..].
  apply read_u16_ok in E1 as (-> & -> & L1).
  unfold rbind at 1, bind at 1 in H.
  destruct (read_u16 (drop 2 src)) as [[n s2]| |] eqn:E2; [|discriminate..].
  apply read_u16_ok in E2 as (_ & -> & L2).
  unfold rbind at 1, bind at 1 in H.
  destruct (read_u16 (drop 2 (drop 2 src))) as [[o s3]| |] eqn:E3; [|discriminate..].
  apply read_u16_ok in E3 as (_ & -> & L3).
  unfold rbind at 1, bind at 1 in H.
  destruct (Glyf.read_n _ read_record_info _) as [[xs s4]| |] eqn:E4; [|discriminate..].
  destruct (read_n_length _ 12 _ read_record_info_length _ _ _ E4) as [Hxs Hl].
  replace (be_value (take 2 src) =? 1) with false in H by (symmetry; by apply N.eqb_neq).
  unfold rbind, bind, ret in H. injection H as _ <- _ <-.
  rewrite !length_drop in *. lia.
Qed.

(** A [name] table of version 0 whose storageOffset points inside its own
    header (before the end of its [count] records, [6 + 12 * count]) makes
    the parser panic: [storage_offset - current_index] underflows. *)
Lemma name_parse_offset_in_header storage_addr src so infos sal src1 :
  read_header src = Ok ((so, infos, sal), src1) -> be_value (take 2 src) <> 1 ->
  (N.to_nat so < 6 + 12 * length infos)%nat ->
  NameTable.parse_table storage_addr src = Panic.
Proof.
  intros H Hv Hso. pose proof (read_header_length _ _ _ _ _ H Hv) as Hl.
  unfold NameTable.parse_table. rewrite H.
  replace (Nat.eqb (N.to_nat so) (length src - length src1)) with false
    by (symmetry; apply Nat.eqb_neq; lia).
  replace (Nat.ltb (N.to_nat so) (length src - length src1)) with true
    by (symmetry; apply Nat.ltb_lt; lia).
  done.
Qed.

(** When the slice ends before the storage area does, [name::parse_table]
    fails with [UnexpectedEop "name::storage_area"] and the number of
    missing bytes (after skipping to storageOffset). *)
Lemma name_parse_storage_short storage_addr src so infos sal src1 :
  read_header src = Ok ((so, infos, sal), src1) ->
  (length src - length src1 <= N.to_nat so)%nat ->
  (length src1 - (N.to_nat so - (length src - length src1)) < sal)%nat ->
  NameTable.parse_table storage_addr src =
    Error (UnexpectedEop "name::storage_area" (sal - (length src1 - (N.to_nat so - (length src - length src1))))).
Proof.
  intros H Hle Hshort. unfold NameTable.parse_table. rewrite H. cbv beta iota zeta.
  set (ci := (length src - length src1)%nat) in *.
  assert (Hif : (if Nat.eqb (N.to_nat so) ci then Ok src1
                 else if Nat.ltb (N.to_nat so) ci then Panic
                 else Ok (fst (skip slice_read (N.to_nat so - ci) src1)))
                = Ok (drop (N.to_nat so - ci) src1)).
  { destruct (Nat.eqb (N.to_nat so) ci) eqn:E.
    - apply Nat.eqb_eq in E. rewrite E, Nat.sub_diag, drop_0. done.
    - replace (Nat.ltb (N.to_nat so) ci) with false by (symmetry; apply Nat.ltb_ge; lia).
      by rewrite skip_slice. }
  rewrite Hif. cbn [bind]. rewrite length_take, length_drop.
  replace (Nat.ltb (Nat.min sal (length src1 - (N.to_nat so - ci))) sal) with true
    by (symmetry; apply Nat.ltb_lt; lia).
  do 3 f_equal. lia.
Qed.

Lemma be_units_u16_be us : Forall (fun u => u < 2 ^ 16) us ->
  Name.be_units (flat_map u16_be us) = us.
Proof.
  induction us as [|u us IH]; intros Hb; [done|].
  inversion Hb as [|? ? Hu Hus]; subst. cbn [flat_map u16_be app Name.be_units].
  rewrite IH by done. f_equal.
  rewrite !Loca.byte_of_spec, N.shiftr_div_pow2. change (2 ^ 8) with 256.
  change (2 ^ 16) with 65536 in Hu.
  rewrite (N.mod_small (u / 256)) by (apply N.Div0.div_lt_upper_bound; lia).
  pose proof (N.div_mod u 256 ltac:(lia)). lia.
Qed.

Lemma encode_utf16_units c : scalar c -> Forall (fun u => u < 2 ^ 16) (encode_utf16 c).
Proof.
  intros [Hc _]. unfold encode_utf16. destruct (c <? 0x10000) eqn:E.
  - apply N.ltb_lt in E. repeat constructor. cbn. lia.
  - apply N.ltb_ge in E. rewrite N.shiftr_div_pow2. change (2 ^ 10) with 1024.
    change 0x3FF with (N.ones 10). rewrite N.land_ones. change (2 ^ 10) with 1024.
    assert ((c - 65536) / 1024 < 1024) by (apply N.Div0.div_lt_upper_bound; lia).
    pose proof (N.mod_lt (c - 65536) 1024 ltac:(lia)).
    repeat constructor; cbn; lia.
Qed.

Lemma decode_encode_utf16 cs : Forall scalar cs ->
  Name.decode_utf16 (flat_map encode_utf16 cs) = cs.
Proof.
  induction cs as [|c cs IH]; intros Hs; [done|].
  inversion Hs as [|? ? [Hc Hsur] Hcs]; subst.
  destruct (c <? 0x10000) eqn:E.
  - assert (Hc1 : encode_utf16 c = [c]) by (unfold encode_utf16; by rewrite E).
    apply N.ltb_lt in E. cbn [flat_map]. rewrite Hc1. cbn [app Name.decode_utf16].
    replace ((c <? 0xD800) || (0xDFFF <? c)) with true
      by (symmetry; apply orb_true_iff; destruct Hsur; [left|right]; by apply N.ltb_lt).
    by rewrite IH.
  - assert (Hc2 : encode_utf16 c =
      [0xD800 + N.shiftr (c - 0x10000) 10; 0xDC00 + N.land (c - 0x10000) 0x3FF])
      by (unfold encode_utf16; by rewrite E).
    apply N.ltb_ge in E. cbn [flat_map]. rewrite Hc2. cbn [app Name.decode_utf16].
    rewrite N.shiftr_div_pow2. change (2 ^ 10) with 1024.
    change 0x3FF with (N.ones 10). rewrite N.land_ones. change (2 ^ 10) with 1024.
    assert (Hq : (c - 65536) / 1024 < 1024) by (apply N.Div0.div_lt_upper_bound; lia).
    pose proof (N.mod_lt (c - 65536) 1024 ltac:(lia)) as Hr.
    replace ((0xD800 + (c - 65536) / 1024 <? 0xD800) || (0xDFFF <? 0xD800 + (c - 65536) / 1024))
      with false by (symmetry; apply orb_false_iff; split; apply N.ltb_ge; lia).
    replace (0xDC00 <=? 0xD800 + (c - 65536) / 1024) with false by (symmetry; apply N.leb_gt; lia).
    replace ((0xDC00 <=? 0xDC00 + (c - 65536) mod 1024) && (0xDC00 + (c - 65536) mod 1024 <=? 0xDFFF))
      with true by (symmetry; apply andb_true_iff; split; apply N.leb_le; lia).
    rewrite IH by done. f_equal.
    replace (0xD800 + (c - 65536) / 1024 - 0xD800) with ((c - 65536) / 1024) by lia.
    replace (0xDC00 + (c - 65536) mod 1024 - 0xDC00) with ((c - 65536) mod 1024) by lia.
    rewrite lor_shiftl_small by (change (2 ^ 10) with 1024; lia).
    change (2 ^ 10) with 1024.
    pose proof (N.div_mod (c - 65536) 1024 ltac:(lia)). lia.
Qed.

(** Round trip of [Record::from_utf16]: the UTF-16BE bytes of a string of
    Unicode scalar values, in a slice at an even address, decode to the
    UTF-8 encoding of the same string (surrogate pairs included). *)
Lemma from_utf16_roundtrip addr cs : N.odd addr = false -> Forall scalar cs ->
  Name.from_utf16 addr (flat_map u16_be (flat_map encode_utf16 cs)) = Ok (flat_map Name.encode_utf8 cs).
Proof.
  intros Ha Hs. unfold Name.from_utf16. rewrite Ha, orb_false_l.
  assert (Hlen : forall us, length (flat_map u16_be us) = (2 * length us)%nat).
  { induction us as [|u us IHu]; [done|]. cbn [flat_map u16_be app length]. rewrite IHu. lia. }
  rewrite Hlen.
  replace (Nat.odd (2 * length (flat_map encode_utf16 cs))) with false
    by (symmetry; rewrite <- Nat.negb_even, Nat.even_mul; done).
  rewrite be_units_u16_be, decode_encode_utf16 by
    (done || (apply Forall_flat_map, (Forall_impl _ _ _ Hs); apply encode_utf16_units)).
  done.
Qed.

End NameExtras.

Lemma name_parse_offset_in_header_witness :
  (NameTable.read_header
     [x00; x00; x00; x01; x00; x04;
      x00; x03; x00; x01; x04; x09; x00; x01; x00; x02; x00; x00; x00; x41]
   = Err.Ok ((4, [(3, 1, 0x409, 1, 0%nat, 2%nat)], 2%nat), [x00; x41]) /\
   Err.be_value (take 2 [x00; x00; x00; x01; x00; x04;
      x00; x03; x00; x01; x04; x09; x00; x01; x00; x02; x00; x00; x00; x41]) <> 1 /\
   (N.to_nat 4 < 6 + 12 * length [(3, 1, 0x409, 1, 0%nat, 2%nat)])%nat) /\
  NameTable.parse_table 0
    [x00; x00; x00; x01; x00; x04;
     x00; x03; x00; x01; x04; x09; x00; x01; x00; x02; x00; x00; x00; x41] = Err.Panic.
Proof.
  assert (H1 : NameTable.read_header
     [x00; x00; x00; x01; x00; x04;
      x00; x03; x00; x01; x04; x09; x00; x01; x00; x02; x00; x00; x00; x41]
   = Err.Ok ((4, [(3, 1, 0x409, 1, 0%nat, 2%nat)], 2%nat), [x00; x41])) by reflexivity.
  assert (H2 : Err.be_value (take 2 [x00; x00; x00; x01; x00; x04;
      x00; x03; x00; x01; x04; x09; x00; x01; x00; x02; x00; x00; x00; x41]) <> 1)
    by (cbn; lia).
  assert (H3 : (N.to_nat 4 < 6 + 12 * length [(3, 1, 0x409, 1, 0%nat, 2%nat)])%nat) by (cbn; lia).
  split; [tauto|]. exact (name_parse_offset_in_header 0 _ _ _ _ _ H1 H2 H3).
Defined.

Lemma name_parse_storage_short_witness :
  (NameTable.read_header
     [x00; x00; x00; x01; x00; x12;
      x00; x03; x00; x01; x04; x09; x00; x01; x00; x02; x00; x00; x00]
   = Err.Ok ((18, [(3, 1, 0x409, 1, 0%nat, 2%nat)], 2%nat), [x00]) /\
   (length [x00; x00; x00; x01; x00; x12;
      x00; x03; x00; x01; x04; x09; x00; x01; x00; x02; x00; x00; x00] - length [x00] <= N.to_nat 18)%nat /\
   (length [x00] - (N.to_nat 18 - (length [x00; x00; x00; x01; x00; x12;
      x00; x03; x00; x01; x04; x09; x00; x01; x00; x02; x00; x00; x00] - length [x00])) < 2)%nat) /\
  NameTable.parse_table 0
    [x00; x00; x00; x01; x00; x12;
     x00; x03; x00; x01; x04; x09; x00; x01; x00; x02; x00; x00; x00]
  = Err.Error (Err.UnexpectedEop "name::storage_area" 1).
Proof.
  assert (H1 : NameTable.read_header
     [x00; x00; x00; x01; x00; x12;
      x00; x03; x00; x01; x04; x09; x00; x01; x00; x02; x00; x00; x00]
   = Err.Ok ((18, [(3, 1, 0x409, 1, 0%nat, 2%nat)], 2%nat), [x00])) by reflexivity.
  assert (H2 : (length [x00; x00; x00; x01; x00; x12;
      x00; x03; x00; x01; x04; x09; x00; x01; x00; x02; x00; x00; x00] - length [x00] <= N.to_nat 18)%nat)
    by (cbn; lia).
  assert (H3 : (length [x00] - (N.to_nat 18 - (length [x00; x00; x00; x01; x00; x12;
      x00; x03; x00; x01; x04; x09; x00; x01; x00; x02; x00; x00; x00] - length [x00])) < 2)%nat)
    by (cbn; lia).
  split; [tauto|]. exact (name_parse_storage_short 0 _ _ _ _ _ H1 H2 H3).
Defined.

Lemma from_utf16_roundtrip_witness :
  (N.odd 16 = false /\ Forall NameTable.scalar [0x41; 0x1F600]) /\
  Name.from_utf16 16 (flat_map NameTable.u16_be (flat_map NameTable.encode_utf16 [0x41; 0x1F600]))
    = Err.Ok (flat_map Name.encode_utf8 [0x41; 0x1F600]).
Proof.
  assert (Ha : N.odd 16 = false) by reflexivity.
  assert (H : Forall NameTable.scalar [0x41; 0x1F600])
    by (repeat constructor; unfold NameTable.scalar; lia).
  split; [split; [exact Ha | exact H] | exact (from_utf16_roundtrip _ _ Ha H)].
Defined.

Section SlotmapPopExtras.
Import Slotmap.
Context {T : Type}.

(** [try_pop] of a key that [get] resolves returns its value and bumps the
    slot's version, so the key no longer resolves; [num_elems], [next_free]
    and the number of slots are left as they were. *)
Lemma try_pop_live (s : Slotmap T) key x :
  get s key = Some (Some x) -> key_version key < 65535 ->
  exists s', try_pop s key = Some (s', Some x) /\
    num_elems s' = num_elems s /\ next_free s' = next_free s /\
    length (slots s') = length (slots s) /\ get s' key = Some None.
Proof.
  intros Hg Hv. unfold get in Hg.
  destruct (contains s key) as [[|]|] eqn:Hc; try discriminate.
  destruct (slots s !! N.to_nat (key_index key)) as [[[y|nf] ver]|] eqn:Hl; try discriminate.
  injection Hg as ->.
  destruct (contains_true _ _ Hc) as [c Hl']. rewrite Hl in Hl'. injection Hl' as _ ->.
  pose proof (lookup_lt_Some _ _ _ Hl) as Hlt.
  eexists. split.
  { unfold try_pop. rewrite Hc.
    replace (65535 <? key_version key + 1) with false by (symmetry; apply N.ltb_ge; lia).
    rewrite Hl. reflexivity. }
  cbn. rewrite length_insert. split; [done|]. split; [done|]. split; [done|].
  assert (Hc' : contains (mkSlotmap (<[N.to_nat (key_index key) :=
                  (NextFree (next_free s), key_version key + 1)]> (slots s))
                  (next_free s) (num_elems s)) key = Some false).
  { apply (contains_stale _ _ (NextFree (next_free s)) (key_version key + 1)); [|lia].
    cbn. by apply list_lookup_insert_eq. }
  unfold get. by rewrite Hc'.
Qed.

End SlotmapPopExtras.

Section NameParseExtras.
Import Err Core NameTable.
Local Open Scope N_scope.

Lemma record_type_of_bound n r : record_type_of n = Ok r -> n <= 32767.
Proof.
  intros H. destruct (N.le_gt_cases n 32767) as [|Hgt]; [done|exfalso].
  assert (H1 : (n <? 256) = false) by (apply N.ltb_ge; lia).
  assert (H2 : (n <=? 32767) = false) by (apply N.leb_gt; lia).
  destruct n as [|p]; [lia|].
  do 5 (destruct p as [p|p|]; try lia);
    cbn in H; rewrite ?H1, ?H2 in H; discriminate.
Qed.

Lemma build_records_ok storage_addr storage infos : forall rs,
  build_records storage_addr storage infos = Ok rs ->
  Forall2 (fun r i => let '(p, e, _, n, b, en) := i in
    record_type_of n = Ok r.1 /\ (b <= en <= length storage)%nat /\
    N.odd (storage_addr + N.of_nat b) = false /\ Nat.odd (en - b) = false /\
    ((p = 0 /\ e = 3) \/ (p = 3 /\ (e = 1 \/ e = 10)))) rs infos.
Proof.
  induction infos as [|[[[[[p e] l] n] b] en] infos IH]; intros rs H.
  - injection H as <-. constructor.
  - cbn [build_records] in H.
    destruct (record_type_of n) as [name| |] eqn:Hn; cbn [bind] in H; try discriminate.
    destruct (Nat.ltb en b || Nat.ltb (length storage) en) eqn:Eb; [discriminate|].
    apply orb_false_iff in Eb as [Eb1 Eb2].
    apply Nat.ltb_ge in Eb1, Eb2.
    destruct (Name.from_bytes p e l _ _) as [str| |] eqn:Hf; cbn [bind] in H; try discriminate.
    destruct (build_records storage_addr storage infos) as [recs| |] eqn:Hr; cbn [bind] in H;
      try discriminate.
    injection H as <-. constructor; [|by apply IH].
    split; [done|]. split; [lia|].
    unfold Name.from_bytes in Hf.
    destruct (((p =? 0) && (3 <=? e) && (e <? 4)) || ((p =? 3) && ((e =? 1) || (e =? 10)))) eqn:Ep;
      [|discriminate].
    unfold Name.from_utf16 in Hf.
    destruct (N.odd _ || Nat.odd _) eqn:Eo; [discriminate|].
    apply orb_false_iff in Eo as [Eo1 Eo2].
    rewrite length_take, length_drop in Eo2.
    replace (Nat.min (en - b) (length storage - b)) with (en - b)%nat in Eo2 by lia.
    split; [done|]. split; [done|].
    apply orb_true_iff in Ep as [Ep|Ep].
    + apply andb_true_iff in Ep as [Ep Ep3]. apply andb_true_iff in Ep as [Ep1 Ep2].
      apply N.eqb_eq in Ep1. apply N.leb_le in Ep2. apply N.ltb_lt in Ep3.
      left. split; [done|lia].
    + apply andb_true_iff in Ep as [Ep1 Ep2]. apply N.eqb_eq in Ep1.
      apply orb_true_iff in Ep2 as [E|E]; apply N.eqb_eq in E; right; split; auto.
Qed.

(** A [name] table that decodes has its [storageOffset] at or past the end
    of the header, one record per NameRecord with the [RecordType] of its
    name ID (at most 32767), its string range [begin..end] inside the storage
    area, starting at an even address and of even length (the [u16] cast),
    and a Unicode platform/encoding pair the code accepts: (0, 3), (3, 1) or
    (3, 10). *)
Lemma name_parse_ok storage_addr src so infos sal src1 rs :
  read_header src = Ok ((so, infos, sal), src1) -> NameTable.parse_table storage_addr src = Ok rs ->
  (length src - length src1 <= N.to_nat so)%nat /\
  Forall2 (fun r i => let '(p, e, _, n, b, en) := i in
    record_type_of n = Ok r.1 /\ n <= 32767 /\ (b <= en <= sal)%nat /\
    N.odd (storage_addr + N.of_nat b) = false /\ Nat.odd (en - b) = false /\
    ((p = 0 /\ e = 3) \/ (p = 3 /\ (e = 1 \/ e = 10)))) rs infos.
Proof.
  intros H Hp. unfold NameTable.parse_table in Hp. rewrite H in Hp. cbv beta iota zeta in Hp.
  set (ci := (length src - length src1)%nat) in *.
  match type of Hp with bind ?x _ = _ => destruct x as [src2| |] eqn:Hif end;
    cbn [bind] in Hp; try discriminate.
  assert (Hci : (ci <= N.to_nat so)%nat).
  { destruct (Nat.eqb (N.to_nat so) ci) eqn:E1; [apply Nat.eqb_eq in E1; lia|].
    destruct (Nat.ltb (N.to_nat so) ci) eqn:E2; [discriminate|]. apply Nat.ltb_ge in E2. lia. }
  split; [done|].
  destruct (Nat.ltb (length (take sal src2)) sal) eqn:E3; [discriminate|].
  apply Nat.ltb_ge in E3. rewrite length_take in E3.
  assert (Hls : length (take sal src2) = sal) by (rewrite length_take; lia).
  pose proof (build_records_ok _ _ _ _ Hp) as Hf. rewrite Hls in Hf.
  eapply Forall2_impl; [exact Hf|].
  intros r [[[[[p e] l] n] b] en] (Hn & Hb & Ha & Hl & He). split; [done|]. split; [|done].
  by eapply record_type_of_bound.
Qed.

End NameParseExtras.

Lemma try_pop_live_witness :
  (Slotmap.get (Slotmap.mkSlotmap [(Slotmap.Value (5 : N), 1)] 0 1) 1 = Some (Some 5) /\ Slotmap.key_version 1 < 65535) /\
  exists s', Slotmap.try_pop (Slotmap.mkSlotmap [(Slotmap.Value (5 : N), 1)] 0 1) 1 = Some (s', Some 5) /\
    Slotmap.num_elems s' = 1 /\ Slotmap.next_free s' = 0 /\
    length (Slotmap.slots s') = 1%nat /\ Slotmap.get s' 1 = Some None.
Proof.
  assert (H1 : Slotmap.get (Slotmap.mkSlotmap [(Slotmap.Value (5 : N), 1)] 0 1) 1 = Some (Some 5))
    by reflexivity.
  assert (H2 : Slotmap.key_version 1 < 65535) by (vm_compute; reflexivity).
  split; [split; [exact H1 | exact H2]|].
  exact (try_pop_live _ _ _ H1 H2).
Defined.

Lemma name_parse_ok_witness :
  (NameTable.read_header
     [x00; x00; x00; x01; x00; x12;
      x00; x03; x00; x01; x04; x09; x00; x01; x00; x02; x00; x00; x00; x41]
   = Err.Ok ((18, [(3, 1, 0x409, 1, 0%nat, 2%nat)], 2%nat), [x00; x41]) /\
   NameTable.parse_table 0
     [x00; x00; x00; x01; x00; x12;
      x00; x03; x00; x01; x04; x09; x00; x01; x00; x02; x00; x00; x00; x41]
   = Err.Ok [(NameTable.Family, [0x41])]) /\
  (length [x00; x00; x00; x01; x00; x12;
      x00; x03; x00; x01; x04; x09; x00; x01; x00; x02; x00; x00; x00; x41] - length [x00; x41]
     <= N.to_nat 18)%nat /\
  Forall2 (fun r i => let '(p, e, _, n, b, en) := i in
    NameTable.record_type_of n = Err.Ok r.1 /\ n <= 32767 /\ (b <= en <= 2)%nat /\
    N.odd (0 + N.of_nat b) = false /\ Nat.odd (en - b) = false /\
    ((p = 0 /\ e = 3) \/ (p = 3 /\ (e = 1 \/ e = 10))))
    [(NameTable.Family, [0x41])] [(3, 1, 0x409, 1, 0%nat, 2%nat)].
Proof.
  assert (H1 : NameTable.read_header
     [x00; x00; x00; x01; x00; x12;
      x00; x03; x00; x01; x04; x09; x00; x01; x00; x02; x00; x00; x00; x41]
   = Err.Ok ((18, [(3, 1, 0x409, 1, 0%nat, 2%nat)], 2%nat), [x00; x41])) by reflexivity.
  assert (H2 : NameTable.parse_table 0
     [x00; x00; x00; x01; x00; x12;
      x00; x03; x00; x01; x04; x09; x00; x01; x00; x02; x00; x00; x00; x41]
   = Err.Ok [(NameTable.Family, [0x41])]) by reflexivity.
  split; [split; [exact H1 | exact H2]|].
  exact (name_parse_ok 0 _ _ _ _ _ _ H1 H2).
Defined.
